(** * Backbone.Courier: the message-bubbling engine of [Backbone.Courier.add]

    A shallow embedding of [view.spawn] and of its private helper
    [getValueOfBestMatchingHashEntry] (src/backbone.courier.js), with the
    properties of the bubbling algorithm stated over it.

    Modelling conventions.
    - JavaScript strings are [string]s of ASCII characters.
    - The event name of a key is taken to hold no character that is special
      in a regular expression, other than ['*']: the code hands the event
      name to [new RegExp] as it is, and only for such names is the outcome
      the one of [eventNameRegEx_test] ([plainEventName] says so in the
      statements that depend on it).
    - A hash ([onMessages]) is an association list in the order in which
      [for( var key in hash )] enumerates its keys.
    - A view is a record; reference equality of views ([!==]) is equality of
      their [cid].  The view returned by [_getParentView()] is a field of the
      record, so the views above a view form a finite chain and the [while]
      loop of [spawn] is a structural recursion along it.
    - Handlers are functions of their three arguments which either return a
      value or throw; they are taken not to change the tables of the views
      nor the payload object while a message bubbles.  What [spawn] calls,
      and in which order, is recorded in a trace of events. *)

From Stdlib Require Import String Ascii List ZArith Bool Lia Arith.
Import ListNotations.
Local Open Scope string_scope.
Local Open Scope list_scope.

Set Warnings "-register-all".

(** ** JavaScript values and completions *)

Inductive Value : Type :=
| VUndefined
| VNull
| VBool (b : bool)
| VNum (n : Z)
| VStr (s : string)
| VArray (elems : list Value)
| VObject (props : list (string * Value))
| VFunction (tag : nat).

(** What a [throw] carries.  The three errors raised by the engine itself are
    told apart from the errors of the JavaScript runtime and from whatever
    user code throws. *)
Inductive Exn : Type :=
| Error (message : string)          (* throw new Error( message ) *)
| TypeError (message : string)      (* throw new TypeError( message ) *)
| NativeTypeError                   (* raised by the runtime, e.g. match[ 1 ] of null *)
| UserThrown (v : Value).           (* thrown by a handler or an overridden method *)

Inductive Completion (A : Type) : Type :=
| Normal (a : A)
| Throw (e : Exn).
Arguments Normal {A} a.
Arguments Throw {A} e.

(** ** Character classes of the two regular expressions *)

(** [\s], restricted to ASCII: tab, line feed, vertical tab, form feed,
    carriage return and space. *)
Definition isWhitespace (c : ascii) : bool :=
  let n := nat_of_ascii c in
  (((9 <=? n) && (n <=? 13)) || (n =? 32))%nat.

(** The characters that [.] does not match. *)
Definition isLineTerminator (c : ascii) : bool :=
  let n := nat_of_ascii c in
  ((n =? 10) || (n =? 13))%nat.

(** [\w]: letters, digits and underscore. *)
Definition isWordChar (c : ascii) : bool :=
  let n := nat_of_ascii c in
  (((48 <=? n) && (n <=? 57)) || ((65 <=? n) && (n <=? 90))
   || ((97 <=? n) && (n <=? 122)) || (n =? 95))%nat.

Definition isStar (c : ascii) : bool := Ascii.eqb c "*"%char.

(** ** Strings *)

Fixpoint takeWhile (p : ascii -> bool) (s : string) : string :=
  match s with
  | EmptyString => EmptyString
  | String c s' => if p c then String c (takeWhile p s') else EmptyString
  end.

Fixpoint dropWhile (p : ascii -> bool) (s : string) : string :=
  match s with
  | EmptyString => EmptyString
  | String c s' => if p c then dropWhile p s' else s
  end.

Fixpoint existsChar (p : ascii -> bool) (s : string) : bool :=
  match s with
  | EmptyString => false
  | String c s' => p c || existsChar p s'
  end.

(** [str.charAt( str.length - 1 )], the empty string when [str] is empty. *)
Fixpoint lastChar (s : string) : option ascii :=
  match s with
  | EmptyString => None
  | String c EmptyString => Some c
  | String _ s' => lastChar s'
  end.

(** [str.replace( "*", "" )]: a string pattern replaces the first occurrence
    only. *)
Fixpoint replaceFirstStar (s : string) : string :=
  match s with
  | EmptyString => EmptyString
  | String c s' => if isStar c then s' else String c (replaceFirstStar s')
  end.

(** The number of characters of [s] that are not ['*']. *)
Fixpoint nonWildcardCount (s : string) : nat :=
  match s with
  | EmptyString => 0
  | String c s' => (if isStar c then 0 else 1) + nonWildcardCount s'
  end.

(** The number of ['*'] in [s]. *)
Fixpoint wildcardCount (s : string) : nat :=
  match s with
  | EmptyString => 0
  | String c s' => (if isStar c then 1 else 0) + wildcardCount s'
  end.

(** ** The key splitter and the event-name pattern *)

(** [key.match( delegateEventSplitter )].  The regular expression is anchored
    at both ends and has two groups: a non-empty run of non-whitespace
    characters, then, after optional whitespace, any characters up to the end
    of the key.  So the first group is the longest prefix of the key without
    whitespace and the second is the rest of the key after the whitespace
    that follows it.  The match is [null] when the key is empty or starts
    with whitespace, and when the rest holds a line terminator, which the dot
    of the second group cannot cross. *)
Definition delegateEventSplitter (key : string) : option (string * string) :=
  let eventName := takeWhile (fun c => negb (isWhitespace c)) key in
  let rest := dropWhile isWhitespace
                (dropWhile (fun c => negb (isWhitespace c)) key) in
  match eventName with
  | EmptyString => None
  | _ => if existsChar isLineTerminator rest then None
         else Some (eventName, rest)
  end.

(** [eventNameRegEx.test( message.name )], where [eventNameRegEx] is the
    event name anchored at both ends, with every ['*'] replaced by a starred
    word-character class.  This is the test for an event name whose characters other than ['*'] stand for themselves
    in a regular expression: every ['*'] matches a possibly empty run of word
    characters, every other character matches itself, and the whole name has
    to be matched. *)
Fixpoint eventNameRegEx_test (eventName name : string) : bool :=
  match eventName with
  | EmptyString =>
      match name with EmptyString => true | _ => false end
  | String p eventName' =>
      if isStar p then
        (fix star (n : string) : bool :=
           eventNameRegEx_test eventName' n
           || match n with
              | EmptyString => false
              | String c n' => isWordChar c && star n'
              end) name
      else
        match name with
        | EmptyString => false
        | String c name' => Ascii.eqb p c && eventNameRegEx_test eventName' name'
        end
  end.

(** ** Views, hashes and messages *)

(** A message handler, called as [method.call( curParent, message.data,
    message.source, message.name )]; the source view is given by its [cid]. *)
Definition Handler : Type := Value -> nat -> string -> Completion Value.

(** The value of an entry of [onMessages]: a function body, the name of a
    method of the view, or [null]. *)
Inductive Callback : Type :=
| Direct (method : Handler)
| Named (methodName : string)
| NullValue.

Definition Hash : Type := list (string * Callback).

(** A property of a view looked up as [curParent[ value ]]: a function, or a
    truthy value that cannot be called.  A property that is missing or falsy
    is not listed in [members]. *)
Inductive Member : Type :=
| Method (method : Handler)
| NotCallable.

(** The [passMessages] property of a view: a plain value ([VUndefined] when
    the view has none), or a function, given by the completion of calling it
    on the view. *)
Inductive PassMessages : Type :=
| PassValue (v : Value)
| PassFunction (call : Completion Value).

Inductive View : Type := mkView {
  cid : nat;
  onMessages : option Hash;            (* [None] unless _.isObject( view.onMessages ) *)
  passMessages : PassMessages;
  members : list (string * Member);
  _getChildViewNamed : string -> Completion (option nat);
  _getParentView : option View
}.

(** [object[ key ]] on an association list. *)
Fixpoint lookup {A : Type} (k : string) (l : list (string * A)) : option A :=
  match l with
  | [] => None
  | (k', a) :: l' => if String.eqb k' k then Some a else lookup k l'
  end.

(** The default [_getChildViewNamed]: [null] when [subviews] is not an
    object, and [this.subviews[ childViewName ]] otherwise. *)
Definition default_getChildViewNamed (subviews : option (list (string * nat)))
    (childViewName : string) : Completion (option nat) :=
  match subviews with
  | None => Normal None
  | Some table => Normal (lookup childViewName table)
  end.

Record Message : Type := mkMessage {
  name : string;
  data : Value;
  source : nat
}.

(** The first argument of [spawn]: the name of the message, or a message
    object whose [name] may be undefined. *)
Inductive SpawnArg : Type :=
| ByName (messageName : string)
| ByObject (messageName : option string) (messageData : Value).

(** What [spawn] does to the views, in order: [this.trigger] on the spawning
    view; the search of [view.onMessages] for a message coming from
    [sourceView]; the call of a handler on [view] with its three arguments;
    the evaluation of [_.result( view, "passMessages" )]. *)
Inductive Event : Type :=
| Triggered (view : nat) (messageName : string) (messageData : Value)
| HashConsulted (view : nat) (messageName : string) (sourceView : nat)
| HandlerCalled (view : nat) (messageData : Value) (messageSource : nat)
                (messageName : string)
| PassMessagesResolved (view : nat).

Definition Trace : Type := list Event.

(** ** getValueOfBestMatchingHashEntry *)

Record Entry : Type := mkEntry {
  eventName : string;
  subviewName : string;
  value : Callback
}.

(** The [for( var key in hash )] loop, which collects the matching entries in
    the order of the keys.  It throws when a key does not match the splitter
    (then [match] is [null]) and when [_getChildViewNamed] throws.  (An event
    name that is not the source of a regular expression, for which
    [new RegExp] throws, is not among the event names of the model.) *)
Fixpoint matchingEntriesOf (hash : Hash) (message : Message) (view sourceView : View)
    : Completion (list Entry) :=
  match hash with
  | [] => Normal []
  | (key, v) :: hash' =>
      match delegateEventSplitter key with
      | None => Throw NativeTypeError
      | Some (eventName, subviewName) =>
          if negb (eventNameRegEx_test eventName message.(name))
          then matchingEntriesOf hash' message view sourceView
          else
            let push :=
              match matchingEntriesOf hash' message view sourceView with
              | Normal entries => Normal (mkEntry eventName subviewName v :: entries)
              | Throw e => Throw e
              end in
            if String.eqb subviewName "" then push
            else
              match view.(_getChildViewNamed) subviewName with
              | Throw e => Throw e
              | Normal (Some child) =>
                  if Nat.eqb child sourceView.(cid) then push
                  else matchingEntriesOf hash' message view sourceView
              | Normal None => matchingEntriesOf hash' message view sourceView
              end
      end
  end.

Definition hasSubviewQualifier (thisEntry : Entry) : bool :=
  negb (String.eqb thisEntry.(subviewName) "").

(** The specificity computed by the iteratee of [_.sortBy]. *)
Definition specificity (thisEntry : Entry) : Z :=
  let nonWildcardCharactersInEventName := replaceFirstStar thisEntry.(eventName) in
  ((if hasSubviewQualifier thisEntry then 1000 else 0)
   + Z.of_nat (String.length nonWildcardCharactersInEventName))%Z.

(** [_.sortBy( list, iteratee )]: a stable sort in ascending order of the
    criterion. *)
Fixpoint insertBy {A : Type} (criterion : A -> Z) (x : A) (sorted : list A) : list A :=
  match sorted with
  | [] => [x]
  | y :: sorted' =>
      if (criterion x <=? criterion y)%Z then x :: y :: sorted'
      else y :: insertBy criterion x sorted'
  end.

Fixpoint sortBy {A : Type} (l : list A) (criterion : A -> Z) : list A :=
  match l with
  | [] => []
  | x :: l' => insertBy criterion x (sortBy l' criterion)
  end.

(** The entry at index 0 after the sort, if any. *)
Definition bestMatchingEntry (matchingEntries : list Entry) : option Entry :=
  let matchingEntries :=
    if (1 <? List.length matchingEntries)%nat
    then sortBy matchingEntries (fun thisEntry => (- specificity thisEntry)%Z)
    else matchingEntries in
  match matchingEntries with
  | [] => None
  | best :: _ => Some best
  end.

(** The result is [Normal NullValue] for JavaScript's [null], whether no
    entry matches or the best entry holds [null]. *)
Definition getValueOfBestMatchingHashEntry (hash : Hash) (message : Message)
    (view sourceView : View) : Completion Callback :=
  match matchingEntriesOf hash message view sourceView with
  | Throw e => Throw e
  | Normal matchingEntries =>
      match bestMatchingEntry matchingEntries with
      | Some best => Normal best.(value)
      | None => Normal NullValue
      end
  end.

(** ** view.spawn *)

(** [message.name.charAt( message.name.length - 1 ) === "!"] *)
Definition isRoundTrip (messageName : string) : bool :=
  match lastChar messageName with
  | Some c => Ascii.eqb c "!"%char
  | None => false
  end.

Definition quote : string := String (ascii_of_nat 34) EmptyString.

(** The callable behind the value of an entry: the value itself when it is a
    function, the property [curParent[ value ]] otherwise, which has to be
    truthy.  ([handleMessage] does not come here with [null].) *)
Definition resolveMethod (curParent : View) (value : Callback) : Completion Handler :=
  match value with
  | Direct method => Normal method
  | Named methodName =>
      match lookup methodName curParent.(members) with
      | Some (Method method) => Normal method
      | Some NotCallable => Throw NativeTypeError
      | None => Throw (Error ("Method " ++ quote ++ methodName ++ quote ++ " does not exist"))
      end
  | NullValue => Throw NativeTypeError
  end.

(** How one turn of the [while] loop leaves its first half, the check of
    [curParent.onMessages]. *)
Inductive Handled : Type :=
| ReturnNow (returnValue : Value)
| ThrowNow (e : Exn)
| GoOn.

Definition handleMessage (message : Message) (isRoundTripMessage : bool)
    (curChild curParent : View) : Trace * Handled :=
  match curParent.(onMessages) with
  | None => ([], GoOn)
  | Some hash =>
      let consulted := HashConsulted curParent.(cid) message.(name) curChild.(cid) in
      match getValueOfBestMatchingHashEntry hash message curParent curChild with
      | Throw e => ([consulted], ThrowNow e)
      | Normal NullValue => ([consulted], GoOn)
      | Normal value =>
          match resolveMethod curParent value with
          | Throw e => ([consulted], ThrowNow e)
          | Normal method =>
              let called := HandlerCalled curParent.(cid) message.(data)
                              message.(source) message.(name) in
              match method message.(data) message.(source) message.(name) with
              | Throw e => ([consulted; called], ThrowNow e)
              | Normal returnValue =>
                  if isRoundTripMessage
                  then ([consulted; called], ReturnNow returnValue)
                  else ([consulted; called], GoOn)
              end
          end
      end
  end.

(** [_.result( curParent, "passMessages" )] *)
Definition result_passMessages (curParent : View) : Completion Value :=
  match curParent.(passMessages) with
  | PassValue v => Normal v
  | PassFunction call => call
  end.

(** [_.contains( passMessages, message.name )]: strict equality with one of
    the elements. *)
Definition strictEqualsString (v : Value) (s : string) : bool :=
  match v with
  | VStr s' => String.eqb s' s
  | _ => false
  end.

Definition contains (elems : list Value) (s : string) : bool :=
  existsb (fun v => strictEqualsString v s) elems.

Definition passMessagesError : Exn :=
  TypeError "passMessages should be boolean or an array.".

(** The second half of a turn: the new content of the variable
    [messageShouldBePassed], which is declared before the loop and starts
    [undefined] ([None]). *)
Definition shouldBePassed (message : Message) (isRoundTripMessage : bool)
    (messageShouldBePassed : option bool) (curParent : View)
    : Trace * Completion (option bool) :=
  if isRoundTripMessage then ([], Normal (Some true))
  else
    let resolved := PassMessagesResolved curParent.(cid) in
    match result_passMessages curParent with
    | Throw e => ([resolved], Throw e)
    | Normal VUndefined => ([resolved], Normal messageShouldBePassed)
    | Normal (VBool b) => ([resolved], Normal (Some b))
    | Normal (VArray elems) => ([resolved], Normal (Some (contains elems message.(name))))
    | Normal _ => ([resolved], Throw passMessagesError)
    end.

(** How the [while( curParent )] loop is left. *)
Inductive LoopExit : Type :=
| Returns (returnValue : Value)     (* return returnValue, inside the loop *)
| Throws (e : Exn)
| Leaves.                           (* break, or curParent is null *)

Definition truthy (messageShouldBePassed : option bool) : bool :=
  match messageShouldBePassed with
  | Some true => true
  | _ => false
  end.

Fixpoint bubble (message : Message) (isRoundTripMessage : bool) (curChild : View)
    (messageShouldBePassed : option bool) (curParent : View) {struct curParent}
    : Trace * LoopExit :=
  match handleMessage message isRoundTripMessage curChild curParent with
  | (t1, ReturnNow returnValue) => (t1, Returns returnValue)
  | (t1, ThrowNow e) => (t1, Throws e)
  | (t1, GoOn) =>
      match shouldBePassed message isRoundTripMessage messageShouldBePassed curParent with
      | (t2, Throw e) => (t1 ++ t2, Throws e)
      | (t2, Normal messageShouldBePassed') =>
          if negb (truthy messageShouldBePassed') then (t1 ++ t2, Leaves)
          else
            match curParent.(_getParentView) with
            | None => (t1 ++ t2, Leaves)
            | Some nextParent =>
                let (t3, exit) :=
                  bubble message isRoundTripMessage curParent
                         messageShouldBePassed' nextParent in
                (t1 ++ t2 ++ t3, exit)
            end
      end
  end.

Definition undefinedNameError : Exn := Error "Undefined message name.".

(** The message object once [source] and [data] are set: the payload defaults
    to an empty object. *)
Definition newMessage (view : View) (messageName : string) (messageData : Value)
    : Message :=
  mkMessage messageName
    (match messageData with VUndefined => VObject [] | d => d end)
    view.(cid).

(** [spawn]: the message is built, triggered on the view itself (the
    listeners of [trigger] are not part of the engine), then bubbled.  The
    message object is created once and its [source] is the spawning view. *)
Definition spawn (view : View) (arg : SpawnArg) (payload : Value)
    : Trace * Completion Value :=
  let built :=
    match arg with
    | ByName messageName => Some (messageName, payload)
    | ByObject (Some messageName) messageData => Some (messageName, messageData)
    | ByObject None _ => None
    end in
  match built with
  | None => ([], Throw undefinedNameError)
  | Some (messageName, messageData) =>
      let message := newMessage view messageName messageData in
      let triggered := Triggered view.(cid) message.(name) message.(data) in
      let isRoundTripMessage := isRoundTrip message.(name) in
      let (t, exit) :=
        match view.(_getParentView) with
        | None => ([], Leaves)
        | Some curParent => bubble message isRoundTripMessage view None curParent
        end in
      match exit with
      | Returns returnValue => (triggered :: t, Normal returnValue)
      | Throws e => (triggered :: t, Throw e)
      | Leaves =>
          (* if( isRoundTripMessage ) return undefined; and otherwise the end
             of the function, which yields undefined as well *)
          (triggered :: t,
           if isRoundTripMessage then Normal VUndefined else Normal VUndefined)
      end
  end.

(** ** The states of the loop

    A state of the [while] loop is the content of its three variables at the
    head of a turn.  [turn] relates a state to the next one when the turn
    ends by moving up; [turns] chains turns and collects their events, so
    [turns message rt s t s'] says that the loop started in [s] visits the
    ancestor [curParent s'], after the events [t]. *)

Record LoopState : Type := mkState {
  curChild : View;
  messageShouldBePassed : option bool;
  curParent : View
}.

Inductive turn (message : Message) (isRoundTripMessage : bool)
    : LoopState -> Trace -> LoopState -> Prop :=
| turn_up : forall child flag parent t1 t2 flag' nextParent,
    handleMessage message isRoundTripMessage child parent = (t1, GoOn) ->
    shouldBePassed message isRoundTripMessage flag parent = (t2, Normal flag') ->
    truthy flag' = true ->
    parent.(_getParentView) = Some nextParent ->
    turn message isRoundTripMessage
         (mkState child flag parent) (t1 ++ t2) (mkState parent flag' nextParent).

Inductive turns (message : Message) (isRoundTripMessage : bool)
    : LoopState -> Trace -> LoopState -> Prop :=
| turns_here : forall s, turns message isRoundTripMessage s [] s
| turns_more : forall s t s' t' s'',
    turn message isRoundTripMessage s t s' ->
    turns message isRoundTripMessage s' t' s'' ->
    turns message isRoundTripMessage s (t ++ t') s''.

(** The loop run from a state. *)
Definition bubbleFrom (message : Message) (isRoundTripMessage : bool) (s : LoopState)
    : Trace * LoopExit :=
  bubble message isRoundTripMessage s.(curChild) s.(messageShouldBePassed) s.(curParent).

(** ** Predicates of the statements *)

(** The element at index 0 has the least criterion. *)
Definition leastFirst {A : Type} (criterion : A -> Z) (l : list A) : Prop :=
  match l with
  | [] => True
  | b :: r => forall y, In y r -> (criterion b <= criterion y)%Z
  end.

(** An event of the bubbling of [message] shows the name, the payload and the
    source of [message]. *)
Definition carries (message : Message) (e : Event) : Prop :=
  match e with
  | Triggered _ n d => n = message.(name) /\ d = message.(data)
  | HashConsulted _ n _ => n = message.(name)
  | HandlerCalled _ d s n =>
      d = message.(data) /\ s = message.(source) /\ n = message.(name)
  | PassMessagesResolved _ => True
  end.

(** The resolved values of [passMessages] that the loop accepts: none,
    a boolean, an array. *)
Definition acceptedShape (passMessages : Value) : bool :=
  match passMessages with
  | VUndefined | VBool _ | VArray _ => true
  | _ => false
  end.

(** The shapes of a present pass table that the specification lists as
    recognized: boolean, list of message names, key/directive mapping. *)
Definition specRecognizedShape (passMessages : Value) : bool :=
  match passMessages with
  | VBool _ | VArray _ | VObject _ => true
  | _ => false
  end.

(** The turn of an ordinary message at [parent], after the events [t1] of
    its first half, hands the message as it is to [nextParent]. *)
Definition forwardsFrom (message : Message) (child : View) (flag : option bool)
    (parent nextParent : View) (t1 : Trace) : Prop :=
  bubble message false child flag parent
  = (t1 ++ PassMessagesResolved parent.(cid)
        :: fst (bubble message false parent (Some true) nextParent),
     snd (bubble message false parent (Some true) nextParent)).

(** The turn of an ordinary message at [parent] is the last one. *)
Definition stopsAt (message : Message) (child : View) (flag : option bool)
    (parent : View) (t1 : Trace) : Prop :=
  bubble message false child flag parent
  = (t1 ++ [PassMessagesResolved parent.(cid)], Leaves).

Ltac open_bubble p :=
  let id := fresh "id" in let om := fresh "om" in let pm := fresh "pm" in
  let mem := fresh "mem" in let gc := fresh "gc" in let par := fresh "par" in
  destruct p as [id om pm mem gc par]; cbn [bubble].

(** No entry of [parent.onMessages] matches the message, for [parent] and
    for every view above it, each one receiving the message from the view
    just below. *)
Fixpoint unhandledFrom (message : Message) (child parent : View) {struct parent} : bool :=
  match parent.(onMessages) with
  | None => true
  | Some hash =>
      match matchingEntriesOf hash message parent child with
      | Normal [] => true
      | _ => false
      end
  end
  && match parent.(_getParentView) with
     | None => true
     | Some nextParent => unhandledFrom message parent nextParent
     end.

(** The same hierarchy with other [passMessages]: every view [v], from
    [view] upwards, gets [tables v]. *)
Fixpoint withPassTables (tables : View -> PassMessages) (view : View) : View :=
  mkView view.(cid) view.(onMessages) (tables view) view.(members)
         view.(_getChildViewNamed)
         match view.(_getParentView) with
         | None => None
         | Some parent => Some (withPassTables tables parent)
         end.

(** ** A small hierarchy to run the model on *)

Module Fixture.

Definition returning (v : Value) : Handler := fun _ _ _ => Normal v.

(** A view without tables, whose children are looked up in [subviews]. *)
Definition plainView (id : nat) (parent : option View) : View :=
  mkView id None (PassValue VUndefined) [] (default_getChildViewNamed None) parent.

Definition withOnMessages (hash : Hash) (v : View) : View :=
  mkView v.(cid) (Some hash) v.(passMessages) v.(members)
         v.(_getChildViewNamed) v.(_getParentView).

Definition withPassMessages (p : PassMessages) (v : View) : View :=
  mkView v.(cid) v.(onMessages) p v.(members)
         v.(_getChildViewNamed) v.(_getParentView).

Definition withSubviews (table : list (string * nat)) (v : View) : View :=
  mkView v.(cid) v.(onMessages) v.(passMessages) v.(members)
         (default_getChildViewNamed (Some table)) v.(_getParentView).

Definition withParent (parent : View) (v : View) : View :=
  mkView v.(cid) v.(onMessages) v.(passMessages) v.(members)
         v.(_getChildViewNamed) (Some parent).

(** cids: 1 the child, 2 the parent, 3 the grandparent, 4 the view above. *)
Definition greatGrandparentView : View := plainView 4 None.
Definition grandparentView : View := plainView 3 None.
Definition parentView : View := plainView 2 None.
Definition childView : View := plainView 1 None.

(** [child] under [parent] under [grandparent]. *)
Definition chain3 (parent grandparent : View) : View :=
  withParent (withParent grandparent parent) childView.

Definition chain4 (parent grandparent greatGrandparent : View) : View :=
  withParent (withParent (withParent greatGrandparent grandparent) parent) childView.

(** The grandparent answers the round-trip message, the parent does not. *)
Definition infoString : Value := VStr "My personal info".

Definition answeringGrandparent : View :=
  withOnMessages [("giveMeInfo!", Direct (returning infoString))] grandparentView.

Definition askingParent : View := withParent answeringGrandparent parentView.

Definition askingChild : View := withParent askingParent childView.

(** The tests of [passMessages]: the parent passes every message, the
    grandparent handles message1. *)
Definition messageData : Value :=
  VObject [("firstName", VStr "Backbone"); ("lastName", VStr "Courier")].

Definition hearing (messageName : string) (v : View) : View :=
  withOnMessages [(messageName, Direct (returning VUndefined))] v.

Definition passingChild : View :=
  chain3 (withPassMessages (PassValue (VBool true)) parentView)
         (hearing "message1" grandparentView).

(** The parent passes every message, the grandparent has no
    [passMessages], the view above handles message1. *)
Definition silentGrandparentChild : View :=
  chain4 (withPassMessages (PassValue (VBool true)) parentView)
         grandparentView
         (hearing "message1" greatGrandparentView).

(** The same hierarchy with a parent that has no [passMessages] either. *)
Definition silentParentChild : View :=
  chain4 parentView grandparentView (hearing "message1" greatGrandparentView).

(** The parent holds a hash that renames message1 to message2. *)
Definition renamingTable : Value := VObject [("message1", VStr "message2")].

Definition renamingParent : View :=
  withParent (withOnMessages [("message2", Direct (returning VUndefined));
                              ("message1", Direct (returning VUndefined))]
                             grandparentView)
             (withPassMessages (PassValue renamingTable) parentView).

Definition renamingChild : View := withParent renamingParent childView.

(** The parent holds a hash that passes message1 unchanged. *)
Definition mappingTable : Value := VObject [("message1", VStr ".")].

Definition mappingParent : View :=
  withParent (hearing "message1" grandparentView)
             (withPassMessages (PassValue mappingTable) parentView).

Definition mappingChild : View := withParent mappingParent childView.

(** The parent lists the names that it passes; the one of [starParent]
    looks like a pattern. *)
Definition listingParent : View :=
  withParent (hearing "message1" grandparentView)
             (withPassMessages (PassValue (VArray [VStr "keyup"; VStr "message1"]))
                               parentView).

Definition starParent : View :=
  withParent (hearing "message1" grandparentView)
             (withPassMessages (PassValue (VArray [VStr "*"; VStr "message*"]))
                               parentView).

(** The parent of the tests of [onMessages]: its [subviews] hold the
    child under the name child1 and another view under child2. *)
Definition namingParentView : View :=
  withSubviews [("child1", 1); ("child2", 5)] parentView.

Fixpoint repeatChar (c : ascii) (n : nat) : string :=
  match n with
  | 0 => EmptyString
  | S n' => String c (repeatChar c n')
  end.

(** A message name of 1001 letters. *)
Definition longName : string := repeatChar "a"%char 1001.

Definition messageNamed (messageName : string) : Message :=
  newMessage childView messageName VUndefined.

End Fixture.

(** ** The DOM side: findClosestParentView and prepareViewElement *)

(** What [el.data( "view" )] holds when it is truthy: the view, by its [cid],
    and whether [_.isFunction( view.render )]. *)
Record AttachedView : Type := mkAttached {
  attachedCid : nat;
  renderIsFunction : bool
}.

(** A DOM element as the code sees it through the DOM library: the node
    [curElement[ 0 ]], the value of [curElement.data( "view" )] ([None] when
    it is falsy) and [curElement.parent()] ([None] when its length is 0). *)
Inductive Element : Type := mkElement {
  node : nat;
  dataView : option AttachedView;
  parentElement : option Element
}.

(** [curElement[ 0 ] !== lastPossibleViewElement] fails: the element is the
    body, found when the library was loaded ([None] when there was no DOM
    library, or no body yet). *)
Definition isLastPossibleViewElement (lastPossibleViewElement : option nat)
    (curElement : Element) : bool :=
  match lastPossibleViewElement with
  | Some body => Nat.eqb curElement.(node) body
  | None => false
  end.

(** The [while] loop of [findClosestParentView], entered with an element of
    length 1. *)
Fixpoint closestViewFrom (lastPossibleViewElement : option nat) (curElement : Element)
    {struct curElement} : option AttachedView :=
  if isLastPossibleViewElement lastPossibleViewElement curElement then None
  else
    let climb :=
      match curElement.(parentElement) with
      | None => None
      | Some above => closestViewFrom lastPossibleViewElement above
      end in
    match curElement.(dataView) with
    | Some curElementView =>
        if curElementView.(renderIsFunction) then Some curElementView else climb
    | None => climb
    end.

(** [Backbone.Courier.findClosestParentView( view )], from the element
    [view.$el]. *)
Definition findClosestParentView (lastPossibleViewElement : option nat) (el : Element)
    : option AttachedView :=
  match el.(parentElement) with
  | None => None
  | Some curElement => closestViewFrom lastPossibleViewElement curElement
  end.

(** [prepareViewElement( view )], as a function of the element [view.$el]:
    the view is stored in the data of the element when the library has
    [data] and the element holds no view yet. *)
Definition prepareViewElement (dataIsFunction : bool) (view : AttachedView)
    (el : Element) : Element :=
  if dataIsFunction
     && match el.(dataView) with None => true | Some _ => false end
  then mkElement el.(node) (Some view) el.(parentElement)
  else el.

(** The elements above an element, nearest first. *)
Fixpoint elementsAbove (el : Element) : list Element :=
  match el.(parentElement) with
  | None => []
  | Some above => above :: elementsAbove above
  end.

(** The elements of a list that come before the body. *)
Fixpoint beforeBody (lastPossibleViewElement : option nat) (l : list Element)
    : list Element :=
  match l with
  | [] => []
  | e :: l' =>
      if isLastPossibleViewElement lastPossibleViewElement e then []
      else e :: beforeBody lastPossibleViewElement l'
  end.

(** The element holds a view that can render. *)
Definition holdsRenderingView (e : Element) : bool :=
  match e.(dataView) with
  | Some v => v.(renderIsFunction)
  | None => false
  end.

(** ** More predicates of the statements *)

(** The views above a view, nearest first. *)
Fixpoint ancestorsOf (view : View) : list View :=
  match view.(_getParentView) with
  | None => []
  | Some parent => parent :: ancestorsOf parent
  end.

(** The view that an event happens on. *)
Definition eventView (e : Event) : nat :=
  match e with
  | Triggered v _ _ => v
  | HashConsulted v _ _ => v
  | HandlerCalled v _ _ _ => v
  | PassMessagesResolved v => v
  end.

(** Every character of the string satisfies [p]. *)
Fixpoint allChars (p : ascii -> bool) (s : string) : bool :=
  match s with
  | EmptyString => true
  | String c s' => p c && allChars p s'
  end.

(** The character occurs in the string. *)
Definition occursIn (c : ascii) (s : string) : bool :=
  existsChar (Ascii.eqb c) s.

(** The characters that have a meaning of their own in the source of a
    regular expression. *)
Definition isRegExpSyntaxChar (c : ascii) : bool :=
  occursIn c "^$\.*+?()[]{}|".

(** The event name holds no such character but ['*'], so that the regular
    expression built from it is valid and matches its other characters
    literally. *)
Definition plainEventName (eventName : string) : bool :=
  allChars (fun c => isStar c || negb (isRegExpSyntaxChar c)) eventName.

(** The key is taken by the loop of the matcher: it splits, its event name
    matches the name of the message, and its qualifier, if any, names the
    source view. *)
Definition keyMatches (message : Message) (view sourceView : View)
    (entry : string * Callback) : bool :=
  match delegateEventSplitter (fst entry) with
  | None => false
  | Some (eventName, subviewName) =>
      eventNameRegEx_test eventName message.(name)
      && (String.eqb subviewName ""
          || match view.(_getChildViewNamed) subviewName with
             | Normal (Some child) => Nat.eqb child sourceView.(cid)
             | _ => false
             end)
  end.

(** The entry that the loop pushes for a key. *)
Definition entryOfKey (entry : string * Callback) : Entry :=
  match delegateEventSplitter (fst entry) with
  | Some (eventName, subviewName) => mkEntry eventName subviewName (snd entry)
  | None => mkEntry "" "" (snd entry)
  end.

(** The names that an event pattern stands for: every ['*'] of the pattern
    is replaced by a run of word characters, possibly empty, and every other
    character is kept. *)
Inductive instanceOf : string -> string -> Prop :=
| instance_end : instanceOf EmptyString EmptyString
| instance_char : forall c pattern messageName,
    isStar c = false ->
    instanceOf pattern messageName ->
    instanceOf (String c pattern) (String c messageName)
| instance_star : forall c pattern run messageName,
    isStar c = true ->
    allChars isWordChar run = true ->
    instanceOf pattern messageName ->
    instanceOf (String c pattern) (run ++ messageName)%string.

(** The error of a method name that the view has no property for. *)
Definition missingMethodError (methodName : string) : Exn :=
  Error ("Method " ++ quote ++ methodName ++ quote ++ " does not exist").

(** ** More hierarchies to run the model on *)

Module Cases.

(** A parent whose handler of save throws. *)
Definition diskFull : Exn := UserThrown (VStr "disk full").

Definition failing : Handler := fun _ _ _ => Throw diskFull.

Definition failingParent : View :=
  Fixture.withOnMessages [("save", Direct failing)] Fixture.parentView.

Definition savingChild : View := Fixture.withParent failingParent Fixture.childView.

(** A parent whose entry names a method that it does not have. *)
Definition forgetfulParent : View :=
  Fixture.withOnMessages [("selected", Named "_onChildSelected")] Fixture.parentView.

Definition selectedChild : View := Fixture.withParent forgetfulParent Fixture.childView.

(** A parent whose [passMessages] is a function that throws. *)
Definition throwingPassParent : View :=
  Fixture.withPassMessages (PassFunction (Throw (UserThrown VNull))) Fixture.parentView.

Definition typingChild : View := Fixture.withParent throwingPassParent Fixture.childView.

(** A parent that hears message1 and returns a value. *)
Definition hearingParent : View :=
  Fixture.withOnMessages [("message1", Direct (Fixture.returning (VStr "heard")))]
                         Fixture.parentView.

Definition heardChild : View := Fixture.withParent hearingParent Fixture.childView.

(** A parent that hears message1 and passes every message, under a
    grandparent that hears it too. *)
Definition hearingGrandparent : View := Fixture.hearing "message1" Fixture.grandparentView.

Definition relayingParent : View :=
  Fixture.withParent hearingGrandparent
    (Fixture.withPassMessages (PassValue (VBool true)) hearingParent).

Definition relayedChild : View := Fixture.withParent relayingParent Fixture.childView.

(** A parent without [passMessages] under a grandparent that hears
    message1. *)
Definition quietParent : View := Fixture.withParent hearingGrandparent Fixture.parentView.

Definition quietChild : View := Fixture.withParent quietParent Fixture.childView.

(** The parent of [Fixture.passingChild]. *)
Definition passingParent : View :=
  Fixture.withParent hearingGrandparent
    (Fixture.withPassMessages (PassValue (VBool true)) Fixture.parentView).

(** A page: the body, a section that holds a rendering view, a wrapper that
    holds a value without [render], and the element of a view inside. *)
Definition bodyElement : Element := mkElement 100 (Some (mkAttached 9 true)) None.





Definition bareElement : Element := mkElement 105 None (Some bodyElement).

End Cases.

(** * Properties *)

(** ** Strings and the sort *)

Lemma replaceFirstStar_length (s : string) :
  String.length (replaceFirstStar s) <= String.length s.
Proof.
  induction s as [| c s IH]; simpl; [lia |].
  destruct (isStar c); simpl; lia.
Qed.

Lemma replaceFirstStar_no_star (s : string) :
  wildcardCount s = 0 -> replaceFirstStar s = s.
Proof.
  induction s as [| c s IH]; simpl; [reflexivity |].
  destruct (isStar c); simpl; intros H; [discriminate | now rewrite IH].
Qed.

(** What the iteratee measures: one wildcard is dropped, the others count. *)
Lemma replaceFirstStar_count (s : string) :
  String.length (replaceFirstStar s)
  = nonWildcardCount s + Nat.pred (wildcardCount s).
Proof.
  induction s as [| c s IH]; simpl; [reflexivity |].
  destruct (isStar c) eqn:E; simpl.
  - clear IH. induction s as [| d s IH]; simpl; [reflexivity |].
    destruct (isStar d); simpl; lia.
  - rewrite IH. reflexivity.
Qed.

Section SortBy.

Variable A : Type.
Variable criterion : A -> Z.

Lemma insertBy_In (x y : A) (l : list A) :
  In y (insertBy criterion x l) <-> y = x \/ In y l.
Proof.
  induction l as [| z l IH]; simpl.
  - intuition auto.
  - destruct (criterion x <=? criterion z)%Z; simpl; [intuition auto |].
    rewrite IH. intuition auto.
Qed.

Lemma sortBy_In (y : A) (l : list A) :
  In y (sortBy l criterion) <-> In y l.
Proof.
  induction l as [| x l IH]; simpl; [reflexivity |].
  rewrite insertBy_In, IH. intuition auto.
Qed.

Lemma insertBy_leastFirst (x : A) (l : list A) :
  leastFirst criterion l -> leastFirst criterion (insertBy criterion x l).
Proof.
  destruct l as [| z l]; simpl; [intros _ y [] |].
  intros Hz. destruct (criterion x <=? criterion z)%Z eqn:E; simpl.
  - apply Z.leb_le in E. intros y [<- | Hy]; [assumption |].
    specialize (Hz y Hy). lia.
  - apply Z.leb_gt in E. intros y Hy.
    apply insertBy_In in Hy. destruct Hy as [-> | Hy]; [lia | now apply Hz].
Qed.

Lemma sortBy_leastFirst (l : list A) : leastFirst criterion (sortBy l criterion).
Proof.
  induction l as [| x l IH]; simpl; [exact I |].
  now apply insertBy_leastFirst.
Qed.

Lemma sortBy_nil (l : list A) : sortBy l criterion = [] -> l = [].
Proof.
  destruct l as [| x l]; [reflexivity |]. simpl.
  destruct (sortBy l criterion) as [| z r]; simpl; [discriminate |].
  destruct (criterion x <=? criterion z)%Z; discriminate.
Qed.

End SortBy.

(** The selected entry is one of the matching entries and none of them is
    more specific, for the specificity that the code computes. *)
Lemma bestMatchingEntry_greatest (entries : list Entry) (best : Entry) :
  bestMatchingEntry entries = Some best ->
  In best entries /\
  forall e, In e entries -> (specificity e <= specificity best)%Z.
Proof.
  unfold bestMatchingEntry.
  destruct (1 <? List.length entries)%nat eqn:E.
  - pose proof (sortBy_leastFirst _ (fun e => (- specificity e)%Z) entries) as L.
    pose proof (fun y => sortBy_In _ (fun e => (- specificity e)%Z) y entries) as M.
    destruct (sortBy entries _) as [| b r]; [discriminate |].
    intros H. injection H as <-. split.
    + apply M. now left.
    + intros e He. apply M in He. destruct He as [<- | He]; [lia |].
      specialize (L e He). simpl in L. lia.
  - apply Nat.ltb_ge in E.
    destruct entries as [| b [| c r]]; simpl in *; try discriminate; try lia.
    intros H. injection H as <-. split; [now left |].
    intros e [<- | []]. lia.
Qed.

Lemma bestMatchingEntry_some (entries : list Entry) :
  entries <> [] -> exists best, bestMatchingEntry entries = Some best.
Proof.
  intros H. unfold bestMatchingEntry.
  destruct (1 <? List.length entries)%nat.
  - destruct (sortBy entries _) as [| b r] eqn:S; [| now exists b].
    apply sortBy_nil in S. contradiction.
  - destruct entries as [| b r]; [contradiction | now exists b].
Qed.

(** ** The pattern matcher *)

(** Every collected entry comes from a key of the hash that matches the
    message, and whose qualifier, if any, names the source view. *)
Lemma matchingEntriesOf_sound (hash : Hash) (message : Message)
    (view sourceView : View) (entries : list Entry) (e : Entry) :
  matchingEntriesOf hash message view sourceView = Normal entries ->
  In e entries ->
  exists key,
    In (key, e.(value)) hash
    /\ delegateEventSplitter key = Some (e.(eventName), e.(subviewName))
    /\ eventNameRegEx_test e.(eventName) message.(name) = true
    /\ (e.(subviewName) = ""
        \/ view.(_getChildViewNamed) e.(subviewName) = Normal (Some sourceView.(cid))).
Proof.
  revert entries. induction hash as [| [key v] hash IH]; simpl; intros entries H He.
  - injection H as <-. destruct He.
  - assert (Rest : forall es, matchingEntriesOf hash message view sourceView = Normal es ->
                   In e es -> exists key0, ((key, v) = (key0, e.(value)) \/ In (key0, e.(value)) hash)
                     /\ delegateEventSplitter key0 = Some (e.(eventName), e.(subviewName))
                     /\ eventNameRegEx_test e.(eventName) message.(name) = true
                     /\ (e.(subviewName) = ""
                         \/ view.(_getChildViewNamed) e.(subviewName)
                            = Normal (Some sourceView.(cid)))).
    { intros es Hes Hin. destruct (IH es Hes Hin) as (k & ? & ? & ? & ?).
      exists k. auto. }
    destruct (delegateEventSplitter key) as [[en sn] |] eqn:Split; [| discriminate].
    destruct (eventNameRegEx_test en message.(name)) eqn:Test; simpl in H;
      [| now apply (Rest entries)].
    assert (Push : forall es,
               match matchingEntriesOf hash message view sourceView with
               | Normal entries0 => Normal (mkEntry en sn v :: entries0)
               | Throw e0 => Throw e0
               end = Normal es ->
               (sn = "" \/ view.(_getChildViewNamed) sn = Normal (Some sourceView.(cid))) ->
               In e es -> exists key0, ((key, v) = (key0, e.(value)) \/ In (key0, e.(value)) hash)
                     /\ delegateEventSplitter key0 = Some (e.(eventName), e.(subviewName))
                     /\ eventNameRegEx_test e.(eventName) message.(name) = true
                     /\ (e.(subviewName) = ""
                         \/ view.(_getChildViewNamed) e.(subviewName)
                            = Normal (Some sourceView.(cid)))).
    { intros es Hes Q Hin.
      destruct (matchingEntriesOf hash message view sourceView) as [es0 |] eqn:M;
        [| discriminate].
      injection Hes as <-. destruct Hin as [<- | Hin]; [| now apply (Rest es0)].
      exists key. simpl. auto. }
    destruct (String.eqb sn "") eqn:Q.
    + apply String.eqb_eq in Q. apply (Push entries H); auto.
    + destruct (view.(_getChildViewNamed) sn) as [[child |] |] eqn:C;
        [| now apply (Rest entries) | discriminate].
      destruct (Nat.eqb child sourceView.(cid)) eqn:N; [| now apply (Rest entries)].
      apply Nat.eqb_eq in N. subst child. apply (Push entries H); auto.
Qed.

(** Where every pattern has at most one wildcard, and within one tier, the
    selected entry has the greatest number of non-wildcard characters. *)
Lemma bestMatchingEntry_single_wildcard (entries : list Entry) (best : Entry) :
  (forall e, In e entries -> wildcardCount e.(eventName) <= 1) ->
  (forall e, In e entries -> hasSubviewQualifier e = hasSubviewQualifier best) ->
  bestMatchingEntry entries = Some best ->
  forall e, In e entries ->
    nonWildcardCount e.(eventName) <= nonWildcardCount best.(eventName).
Proof.
  intros W T B e He.
  destruct (bestMatchingEntry_greatest _ _ B) as [Hb G].
  specialize (G e He). unfold specificity in G.
  rewrite (T e He) in G. rewrite !replaceFirstStar_count in G.
  pose proof (W e He). pose proof (W best Hb).
  destruct (hasSubviewQualifier best); lia.
Qed.

(** C2, at the input where the code departs from it: the keys mess* and
    m*e*s* both match message1 and neither has a qualifier; the first has
    four non-wildcard characters and the second three, yet the second is
    selected, because only the first wildcard of a pattern is left out of
    the count. *)
Theorem most_non_wildcards_not_selected :
  let hash := [("mess*", Named "onMess"); ("m*e*s*", Named "onLoose")] in
  matchingEntriesOf hash (Fixture.messageNamed "message1")
                    Fixture.namingParentView Fixture.childView
  = Normal [mkEntry "mess*" "" (Named "onMess"); mkEntry "m*e*s*" "" (Named "onLoose")]
  /\ nonWildcardCount "m*e*s*" < nonWildcardCount "mess*"
  /\ getValueOfBestMatchingHashEntry hash (Fixture.messageNamed "message1")
                                     Fixture.namingParentView Fixture.childView
     = Normal (Named "onLoose").
Proof.
  repeat split; vm_compute; lia.
Qed.

(** C5 as stated fails: the qualified key matches the message of the child
    and so does the unqualified key of 1001 letters, and the unqualified
    entry is selected. *)
Lemma qualified_entry_outranked_by_long_name :
  matchingEntriesOf [("* child1", Named "onChild1"); (Fixture.longName, Named "onAny")]
                    (Fixture.messageNamed Fixture.longName)
                    Fixture.namingParentView Fixture.childView
  = Normal [mkEntry "*" "child1" (Named "onChild1");
            mkEntry Fixture.longName "" (Named "onAny")]
  /\ getValueOfBestMatchingHashEntry
       [("* child1", Named "onChild1"); (Fixture.longName, Named "onAny")]
       (Fixture.messageNamed Fixture.longName)
       Fixture.namingParentView Fixture.childView
     = Normal (Named "onAny").
Proof.
  split; vm_compute; reflexivity.
Qed.

(** C5, amended: among the entries that match a message and its source, an
    entry with a child-name qualifier is selected over every entry without
    one whose event pattern is shorter than 1000 characters, whatever the
    wildcards of either pattern. *)
Theorem qualified_entry_selected_below_1000 (hash : Hash) (message : Message)
    (view sourceView : View) (entries : list Entry) (qualified : Entry) :
  matchingEntriesOf hash message view sourceView = Normal entries ->
  In qualified entries ->
  hasSubviewQualifier qualified = true ->
  (forall e, In e entries -> hasSubviewQualifier e = false ->
             String.length e.(eventName) < 1000) ->
  exists best,
    bestMatchingEntry entries = Some best
    /\ hasSubviewQualifier best = true
    /\ getValueOfBestMatchingHashEntry hash message view sourceView
       = Normal best.(value).
Proof.
  intros M Hq Q Short.
  destruct (bestMatchingEntry_some entries) as [best B].
  { intros ->. destruct Hq. }
  exists best. split; [assumption |]. split.
  - destruct (bestMatchingEntry_greatest _ _ B) as [Hb G].
    destruct (hasSubviewQualifier best) eqn:Qb; [reflexivity | exfalso].
    specialize (G _ Hq). specialize (Short _ Hb Qb).
    unfold specificity in G. rewrite Q, Qb in G.
    pose proof (replaceFirstStar_length best.(eventName)). lia.
  - unfold getValueOfBestMatchingHashEntry. now rewrite M, B.
Qed.

Lemma qualified_entry_selected_below_1000_witness :
  exists best,
    bestMatchingEntry [mkEntry "selected" "" (Named "onSelected");
                       mkEntry "sel*" "child1" (Named "onChild1")] = Some best
    /\ hasSubviewQualifier best = true
    /\ getValueOfBestMatchingHashEntry
         [("selected", Named "onSelected"); ("sel* child1", Named "onChild1")]
         (Fixture.messageNamed "selected") Fixture.namingParentView Fixture.childView
       = Normal best.(value).
Proof.
  apply (qualified_entry_selected_below_1000
           [("selected", Named "onSelected"); ("sel* child1", Named "onChild1")]
           (Fixture.messageNamed "selected") Fixture.namingParentView Fixture.childView
           _ (mkEntry "sel*" "child1" (Named "onChild1"))).
  - reflexivity.
  - simpl. auto.
  - reflexivity.
  - intros e [<- | [<- | []]]; simpl; intros H; [lia | discriminate].
Defined.

(** ** The loop *)

(** Induction along the chain of parents of a view. *)
Lemma View_chain_ind (P : View -> Prop) :
  (forall v, (forall p, v.(_getParentView) = Some p -> P p) -> P v) ->
  forall v, P v.
Proof.
  intros Step. fix IH 1. intros [id om pm mem gc [p |]]; apply Step; simpl.
  - intros q E. injection E as <-. apply IH.
  - intros q E. discriminate.
Qed.

Section Turn.

Variable message : Message.
Variable isRoundTripMessage : bool.
Variables (child parent : View) (flag : option bool).

Lemma bubble_returns (t1 : Trace) (returnValue : Value) :
  handleMessage message isRoundTripMessage child parent = (t1, ReturnNow returnValue) ->
  bubble message isRoundTripMessage child flag parent = (t1, Returns returnValue).
Proof. open_bubble parent. now intros ->. Qed.

Lemma bubble_throws_handling (t1 : Trace) (e : Exn) :
  handleMessage message isRoundTripMessage child parent = (t1, ThrowNow e) ->
  bubble message isRoundTripMessage child flag parent = (t1, Throws e).
Proof. open_bubble parent. now intros ->. Qed.

Lemma bubble_throws_passing (t1 t2 : Trace) (e : Exn) :
  handleMessage message isRoundTripMessage child parent = (t1, GoOn) ->
  shouldBePassed message isRoundTripMessage flag parent = (t2, Throw e) ->
  bubble message isRoundTripMessage child flag parent = (t1 ++ t2, Throws e).
Proof. open_bubble parent. now intros -> ->. Qed.

Lemma bubble_breaks (t1 t2 : Trace) (flag' : option bool) :
  handleMessage message isRoundTripMessage child parent = (t1, GoOn) ->
  shouldBePassed message isRoundTripMessage flag parent = (t2, Normal flag') ->
  truthy flag' = false ->
  bubble message isRoundTripMessage child flag parent = (t1 ++ t2, Leaves).
Proof. open_bubble parent. now intros -> -> ->. Qed.

Lemma bubble_top (t1 t2 : Trace) (flag' : option bool) :
  handleMessage message isRoundTripMessage child parent = (t1, GoOn) ->
  shouldBePassed message isRoundTripMessage flag parent = (t2, Normal flag') ->
  parent.(_getParentView) = None ->
  bubble message isRoundTripMessage child flag parent = (t1 ++ t2, Leaves).
Proof.
  open_bubble parent. intros -> -> P. simpl in P. subst par.
  now destruct (truthy flag').
Qed.

Lemma bubble_up (t1 t2 : Trace) (flag' : option bool) (nextParent : View) :
  handleMessage message isRoundTripMessage child parent = (t1, GoOn) ->
  shouldBePassed message isRoundTripMessage flag parent = (t2, Normal flag') ->
  truthy flag' = true ->
  parent.(_getParentView) = Some nextParent ->
  bubble message isRoundTripMessage child flag parent
  = (t1 ++ t2 ++ fst (bubble message isRoundTripMessage parent flag' nextParent),
     snd (bubble message isRoundTripMessage parent flag' nextParent)).
Proof.
  open_bubble parent. intros -> -> -> P. simpl in P. subst par. simpl.
  now destruct (bubble _ _ _ _ _).
Qed.

End Turn.

(** The loop started in a state does what the loop started in a later state
    does, after the events of the turns in between. *)
Lemma turns_bubbleFrom (message : Message) (isRoundTripMessage : bool)
    (s s' : LoopState) (t : Trace) :
  turns message isRoundTripMessage s t s' ->
  bubbleFrom message isRoundTripMessage s
  = (t ++ fst (bubbleFrom message isRoundTripMessage s'),
     snd (bubbleFrom message isRoundTripMessage s')).
Proof.
  induction 1 as [s | s t s' t' s'' Step _ IH].
  - simpl. now destruct (bubbleFrom _ _ s).
  - destruct Step as [c f p t1 t2 f' next H1 H2 H3 H4].
    unfold bubbleFrom in *. simpl in *.
    rewrite (bubble_up _ _ _ _ _ _ _ _ _ H1 H2 H3 H4), IH. simpl.
    now rewrite <- !app_assoc.
Qed.

(** [spawn] by name, in terms of the loop. *)
Lemma spawn_bubble (view first : View) (messageName : string) (payload : Value) :
  view.(_getParentView) = Some first ->
  spawn view (ByName messageName) payload
  = (Triggered view.(cid) messageName (newMessage view messageName payload).(data)
       :: fst (bubble (newMessage view messageName payload) (isRoundTrip messageName)
                      view None first),
     match snd (bubble (newMessage view messageName payload) (isRoundTrip messageName)
                       view None first) with
     | Returns returnValue => Normal returnValue
     | Throws e => Throw e
     | Leaves => Normal VUndefined
     end).
Proof.
  intros P. unfold spawn. rewrite P. simpl.
  destruct (bubble _ _ _ _ _) as [t [v | e |]]; simpl; try reflexivity.
  now destruct (isRoundTrip messageName).
Qed.

(** A matching entry whose value resolves to a callable is called, and a
    round-trip message returns what it returns. *)
Lemma handleMessage_best (message : Message) (isRoundTripMessage : bool)
    (child parent : View) (hash : Hash) (entries : list Entry) (best : Entry)
    (method : Handler) (returnValue : Value) :
  parent.(onMessages) = Some hash ->
  matchingEntriesOf hash message parent child = Normal entries ->
  bestMatchingEntry entries = Some best ->
  resolveMethod parent best.(value) = Normal method ->
  method message.(data) message.(source) message.(name) = Normal returnValue ->
  handleMessage message isRoundTripMessage child parent
  = ([HashConsulted parent.(cid) message.(name) child.(cid);
      HandlerCalled parent.(cid) message.(data) message.(source) message.(name)],
     if isRoundTripMessage then ReturnNow returnValue else GoOn).
Proof.
  intros O M B R C. unfold handleMessage, getValueOfBestMatchingHashEntry.
  rewrite O, M, B.
  destruct best.(value) as [m | n |] eqn:V; [| | discriminate];
    rewrite R, C; now destruct isRoundTripMessage.
Qed.

(** ** Round-trip messages *)

(** C1: a round-trip message that reaches an ancestor with a matching entry
    of [onMessages] calls the handler of the best entry and [spawn] returns
    what the handler returns, whatever that value is, [undefined] included.
    The events of [spawn] end with the call: no hash of a view above the
    ancestor is consulted. *)
Theorem roundtrip_handler_result_returned
    (view first child ancestor : View) (flag : option bool)
    (messageName : string) (payload : Value) (t : Trace)
    (hash : Hash) (entries : list Entry) (best : Entry)
    (method : Handler) (returnValue : Value) :
  let message := newMessage view messageName payload in
  isRoundTrip messageName = true ->
  view.(_getParentView) = Some first ->
  turns message true (mkState view None first) t (mkState child flag ancestor) ->
  ancestor.(onMessages) = Some hash ->
  matchingEntriesOf hash message ancestor child = Normal entries ->
  bestMatchingEntry entries = Some best ->
  resolveMethod ancestor best.(value) = Normal method ->
  method message.(data) message.(source) message.(name) = Normal returnValue ->
  spawn view (ByName messageName) payload
  = (Triggered view.(cid) messageName message.(data)
       :: t ++ [HashConsulted ancestor.(cid) messageName child.(cid);
                HandlerCalled ancestor.(cid) message.(data) view.(cid) messageName],
     Normal returnValue).
Proof.
  intros message RT P T O M B R C.
  rewrite (spawn_bubble _ _ _ _ P), RT. fold message.
  pose proof (turns_bubbleFrom _ _ _ _ _ T) as E. unfold bubbleFrom in E. simpl in E.
  rewrite E.
  rewrite (bubble_returns _ _ _ _ _ _ _
             (handleMessage_best _ true _ _ _ _ _ _ _ O M B R C)).
  reflexivity.
Qed.

Lemma roundtrip_handler_result_returned_witness :
  spawn Fixture.askingChild (ByName "giveMeInfo!") VUndefined
  = ([Triggered 1 "giveMeInfo!" (VObject []);
      HashConsulted 3 "giveMeInfo!" 2;
      HandlerCalled 3 (VObject []) 1 "giveMeInfo!"],
     Normal Fixture.infoString).
Proof.
  apply (roundtrip_handler_result_returned
           Fixture.askingChild Fixture.askingParent
           Fixture.askingParent Fixture.answeringGrandparent (Some true)
           "giveMeInfo!" VUndefined []
           [("giveMeInfo!", Direct (Fixture.returning Fixture.infoString))]
           [mkEntry "giveMeInfo!" "" (Direct (Fixture.returning Fixture.infoString))]
           (mkEntry "giveMeInfo!" "" (Direct (Fixture.returning Fixture.infoString)))
           (Fixture.returning Fixture.infoString) Fixture.infoString);
    try reflexivity.
  apply (turns_more _ _ _ []
           (mkState Fixture.askingParent (Some true) Fixture.answeringGrandparent)
           [] _); [| apply turns_here].
  apply (turn_up _ _ _ _ _ [] [] (Some true)); reflexivity.
Defined.

Lemma handleMessage_unhandled (message : Message) (isRoundTripMessage : bool)
    (child parent : View) :
  match parent.(onMessages) with
  | None => true
  | Some hash =>
      match matchingEntriesOf hash message parent child with
      | Normal [] => true
      | _ => false
      end
  end = true ->
  exists t1,
    handleMessage message isRoundTripMessage child parent = (t1, GoOn)
    /\ forall v d s n, ~ In (HandlerCalled v d s n) t1.
Proof.
  unfold handleMessage, getValueOfBestMatchingHashEntry.
  destruct parent.(onMessages) as [hash |].
  - destruct (matchingEntriesOf hash message parent child) as [[| e es] | e];
      try discriminate.
    intros _. eexists; split; [reflexivity |].
    intros v d s n [H | []]. discriminate.
  - intros _. exists []. split; [reflexivity | intros v d s n []].
Qed.

Lemma roundtrip_passed (message : Message) (flag : option bool) (parent : View) :
  shouldBePassed message true flag parent = ([], Normal (Some true)).
Proof. reflexivity. Qed.

Lemma bubble_unhandled_roundtrip (message : Message) (parent : View) :
  forall (child : View) (flag : option bool),
    unhandledFrom message child parent = true ->
    snd (bubble message true child flag parent) = Leaves
    /\ forall v d s n,
         ~ In (HandlerCalled v d s n) (fst (bubble message true child flag parent)).
Proof.
  induction parent as [parent IH] using View_chain_ind. intros child flag U.
  assert (U' : unhandledFrom message child parent
               = (match parent.(onMessages) with
                  | None => true
                  | Some hash =>
                      match matchingEntriesOf hash message parent child with
                      | Normal [] => true
                      | _ => false
                      end
                  end
                  && match parent.(_getParentView) with
                     | None => true
                     | Some nextParent => unhandledFrom message parent nextParent
                     end)%bool) by (destruct parent; reflexivity).
  rewrite U' in U. apply andb_true_iff in U. destruct U as [Here Above].
  destruct (handleMessage_unhandled message true child parent Here) as (t1 & H & NoCall).
  destruct parent.(_getParentView) as [next |] eqn:P.
  - rewrite (bubble_up _ _ _ _ _ _ _ _ _ H (roundtrip_passed _ _ _) eq_refl P). simpl.
    destruct (IH next eq_refl parent (Some true) Above) as [L N].
    split; [assumption |].
    intros v d s n I. apply in_app_or in I. destruct I as [I | I].
    + exact (NoCall _ _ _ _ I).
    + exact (N _ _ _ _ I).
  - rewrite (bubble_top _ _ _ _ _ _ _ _ H (roundtrip_passed _ _ _) P). simpl.
    split; [reflexivity |]. rewrite app_nil_r. exact NoCall.
Qed.

(** C8: a round-trip message that no ancestor has a matching entry for makes
    [spawn] return [undefined], and no handler is called; the outcome is a
    value of the function [spawn], the same on every such call. *)
Theorem unhandled_roundtrip_returns_undefined
    (view : View) (messageName : string) (payload : Value) :
  isRoundTrip messageName = true ->
  (forall first, view.(_getParentView) = Some first ->
     unhandledFrom (newMessage view messageName payload) view first = true) ->
  snd (spawn view (ByName messageName) payload) = Normal VUndefined
  /\ forall v d s n,
       ~ In (HandlerCalled v d s n) (fst (spawn view (ByName messageName) payload)).
Proof.
  intros RT U. destruct view.(_getParentView) as [first |] eqn:P.
  - rewrite (spawn_bubble _ _ _ _ P), RT. simpl.
    destruct (bubble_unhandled_roundtrip _ first view None (U first eq_refl)) as [L N].
    rewrite L. split; [reflexivity |].
    intros v d s n [I | I]; [discriminate | exact (N _ _ _ _ I)].
  - unfold spawn. rewrite P. simpl. rewrite RT. simpl. split; [reflexivity |].
    intros v d s n [I | []]. discriminate.
Qed.

Lemma unhandled_roundtrip_returns_undefined_witness :
  snd (spawn Fixture.askingChild (ByName "roundtripMessage!") VUndefined)
  = Normal VUndefined
  /\ forall v d s n,
       ~ In (HandlerCalled v d s n)
            (fst (spawn Fixture.askingChild (ByName "roundtripMessage!") VUndefined)).
Proof.
  apply (unhandled_roundtrip_returns_undefined
           Fixture.askingChild "roundtripMessage!" VUndefined).
  - reflexivity.
  - intros first E. injection E as <-. reflexivity.
Defined.

(** The matcher looks at the view through [_getChildViewNamed] and at the
    source view through its [cid]. *)
Lemma matchingEntriesOf_ext (hash : Hash) (message : Message)
    (view view' sourceView sourceView' : View) :
  view.(_getChildViewNamed) = view'.(_getChildViewNamed) ->
  sourceView.(cid) = sourceView'.(cid) ->
  matchingEntriesOf hash message view sourceView
  = matchingEntriesOf hash message view' sourceView'.
Proof.
  intros G C. induction hash as [| [key v] hash IH]; simpl; [reflexivity |].
  now rewrite IH, G, C.
Qed.

Lemma handleMessage_ext (message : Message) (isRoundTripMessage : bool)
    (child child' parent parent' : View) :
  child.(cid) = child'.(cid) ->
  parent.(cid) = parent'.(cid) ->
  parent.(onMessages) = parent'.(onMessages) ->
  parent.(members) = parent'.(members) ->
  parent.(_getChildViewNamed) = parent'.(_getChildViewNamed) ->
  handleMessage message isRoundTripMessage child parent
  = handleMessage message isRoundTripMessage child' parent'.
Proof.
  intros C I O M G. unfold handleMessage, getValueOfBestMatchingHashEntry, resolveMethod.
  rewrite O, C, I, M.
  destruct parent'.(onMessages) as [hash |]; [| reflexivity].
  now rewrite (matchingEntriesOf_ext hash message parent parent' child child' G C).
Qed.

Lemma handleMessage_withPassTables (message : Message) (isRoundTripMessage : bool)
    (tables : View -> PassMessages) (child child' parent : View) :
  child.(cid) = child'.(cid) ->
  handleMessage message isRoundTripMessage child (withPassTables tables parent)
  = handleMessage message isRoundTripMessage child' parent.
Proof.
  intros C. apply handleMessage_ext; destruct parent; auto.
Qed.

Lemma withPassTables_parent (tables : View -> PassMessages) (view : View) :
  (withPassTables tables view).(_getParentView)
  = match view.(_getParentView) with
    | None => None
    | Some parent => Some (withPassTables tables parent)
    end.
Proof. destruct view; reflexivity. Qed.

Lemma withPassTables_cid (tables : View -> PassMessages) (view : View) :
  (withPassTables tables view).(cid) = view.(cid).
Proof. destruct view; reflexivity. Qed.

Lemma bubble_roundtrip_withPassTables (message : Message)
    (tables : View -> PassMessages) (parent : View) :
  forall (child child' : View) (flag flag' : option bool),
    child.(cid) = child'.(cid) ->
    bubble message true child flag (withPassTables tables parent)
    = bubble message true child' flag' parent.
Proof.
  induction parent as [parent IH] using View_chain_ind. intros child child' flag flag' C.
  pose proof (handleMessage_withPassTables message true tables child child' parent C) as H.
  destruct (handleMessage message true child' parent) as [t1 [v | e |]] eqn:H'.
  - now rewrite (bubble_returns _ _ _ _ _ _ _ H), (bubble_returns _ _ _ _ _ _ _ H').
  - now rewrite (bubble_throws_handling _ _ _ _ _ _ _ H),
      (bubble_throws_handling _ _ _ _ _ _ _ H').
  - pose proof (withPassTables_parent tables parent) as P.
    destruct parent.(_getParentView) as [next |] eqn:P'.
    + rewrite (bubble_up _ _ _ _ _ _ _ _ _ H (roundtrip_passed _ _ _) eq_refl P).
      rewrite (bubble_up _ _ _ _ _ _ _ _ _ H' (roundtrip_passed _ _ _) eq_refl P').
      now rewrite (IH next eq_refl (withPassTables tables parent) parent
                      (Some true) (Some true) (withPassTables_cid tables parent)).
    + now rewrite (bubble_top _ _ _ _ _ _ _ _ H (roundtrip_passed _ _ _) P),
        (bubble_top _ _ _ _ _ _ _ _ H' (roundtrip_passed _ _ _) P').
Qed.

(** The shape of the first half of a turn: no event; the consultation of the
    hash alone; or the consultation followed by the call of a handler. *)
Lemma handleMessage_shape (message : Message) (isRoundTripMessage : bool)
    (child parent : View) :
  let consulted := HashConsulted parent.(cid) message.(name) child.(cid) in
  let called := HandlerCalled parent.(cid) message.(data) message.(source)
                              message.(name) in
  let t := fst (handleMessage message isRoundTripMessage child parent) in
  (t = [] /\ snd (handleMessage message isRoundTripMessage child parent) = GoOn)
  \/ t = [consulted] \/ t = [consulted; called].
Proof.
  unfold handleMessage.
  destruct parent.(onMessages) as [hash |]; simpl; [| now left].
  right.
  destruct (getValueOfBestMatchingHashEntry hash message parent child) as [value | e];
    simpl; [| now left].
  destruct value as [m | n |]; simpl; [| | now left].
  - destruct (m message.(data) message.(source) message.(name)); simpl;
      [destruct isRoundTripMessage |]; now right.
  - destruct (lookup n parent.(members)) as [[m |] |]; simpl; try now left.
    destruct (m message.(data) message.(source) message.(name)); simpl;
      [destruct isRoundTripMessage |]; now right.
Qed.

Lemma handleMessage_carries (message : Message) (isRoundTripMessage : bool)
    (child parent : View) :
  Forall (carries message) (fst (handleMessage message isRoundTripMessage child parent)).
Proof.
  destruct (handleMessage_shape message isRoundTripMessage child parent)
    as [[-> _] | [-> | ->]]; repeat constructor.
Qed.

Lemma handleMessage_no_resolve (message : Message) (isRoundTripMessage : bool)
    (child parent : View) (v : nat) :
  ~ In (PassMessagesResolved v)
       (fst (handleMessage message isRoundTripMessage child parent)).
Proof.
  destruct (handleMessage_shape message isRoundTripMessage child parent)
    as [[-> _] | [-> | ->]]; simpl; intuition discriminate.
Qed.

Lemma bubble_roundtrip_no_resolve (message : Message) (parent : View) :
  forall (child : View) (flag : option bool) (v : nat),
    ~ In (PassMessagesResolved v) (fst (bubble message true child flag parent)).
Proof.
  induction parent as [parent IH] using View_chain_ind. intros child flag v.
  pose proof (handleMessage_no_resolve message true child parent v) as N.
  destruct (handleMessage message true child parent) as [t1 [r | e |]] eqn:H.
  - now rewrite (bubble_returns _ _ _ _ _ _ _ H).
  - now rewrite (bubble_throws_handling _ _ _ _ _ _ _ H).
  - destruct parent.(_getParentView) as [next |] eqn:P.
    + rewrite (bubble_up _ _ _ _ _ _ _ _ _ H (roundtrip_passed _ _ _) eq_refl P). simpl.
      intros I. apply in_app_or in I. destruct I as [I | I]; [now apply N |].
      exact (IH next eq_refl parent (Some true) v I).
    + rewrite (bubble_top _ _ _ _ _ _ _ _ H (roundtrip_passed _ _ _) P). simpl.
      now rewrite app_nil_r.
Qed.

(** C7: at an ancestor where a round-trip message is not handled, the loop
    goes on with the view above, and [passMessages] plays no part in the
    bubbling of a round-trip message: it is never resolved, and whatever the
    views hold as [passMessages] (nothing, a value of any shape, a function
    that throws), the loop does the same. *)
Theorem roundtrip_never_consults_passMessages
    (message : Message) (child parent nextParent : View) (flag : option bool)
    (t1 : Trace) (tables : View -> PassMessages) :
  handleMessage message true child parent = (t1, GoOn) ->
  parent.(_getParentView) = Some nextParent ->
  bubble message true child flag parent
  = (t1 ++ fst (bubble message true parent (Some true) nextParent),
     snd (bubble message true parent (Some true) nextParent))
  /\ bubble message true child flag (withPassTables tables parent)
     = bubble message true child flag parent
  /\ forall v, ~ In (PassMessagesResolved v)
                    (fst (bubble message true child flag parent)).
Proof.
  intros H P. split; [| split].
  - now rewrite (bubble_up _ _ _ _ _ _ _ _ _ H (roundtrip_passed _ _ _) eq_refl P).
  - now apply bubble_roundtrip_withPassTables.
  - apply bubble_roundtrip_no_resolve.
Qed.

Lemma roundtrip_never_consults_passMessages_witness :
  let message := newMessage Fixture.askingChild "giveMeInfo!" VUndefined in
  bubble message true Fixture.askingChild None Fixture.askingParent
  = ([] ++ fst (bubble message true Fixture.askingParent (Some true)
                       Fixture.answeringGrandparent),
     snd (bubble message true Fixture.askingParent (Some true)
                 Fixture.answeringGrandparent))
  /\ bubble message true Fixture.askingChild None
            (withPassTables (fun _ => PassValue (VNum 7)) Fixture.askingParent)
     = bubble message true Fixture.askingChild None Fixture.askingParent
  /\ forall v, ~ In (PassMessagesResolved v)
                    (fst (bubble message true Fixture.askingChild None
                                 Fixture.askingParent)).
Proof.
  apply (roundtrip_never_consults_passMessages
           (newMessage Fixture.askingChild "giveMeInfo!" VUndefined)
           Fixture.askingChild Fixture.askingParent Fixture.answeringGrandparent
           None [] (fun _ => PassValue (VNum 7))); reflexivity.
Defined.

(** The same at the level of [spawn]. *)
Corollary spawn_roundtrip_withPassTables (view : View) (messageName : string)
    (payload : Value) (tables : View -> PassMessages) :
  isRoundTrip messageName = true ->
  spawn (withPassTables tables view) (ByName messageName) payload
  = spawn view (ByName messageName) payload.
Proof.
  intros RT. pose proof (withPassTables_parent tables view) as P.
  pose proof (withPassTables_cid tables view) as C.
  assert (M : newMessage (withPassTables tables view) messageName payload
              = newMessage view messageName payload)
    by (unfold newMessage; now rewrite C).
  destruct view.(_getParentView) as [first |] eqn:P'.
  - rewrite (spawn_bubble _ _ _ _ P), (spawn_bubble _ _ _ _ P'), RT, M, C.
    now rewrite (bubble_roundtrip_withPassTables _ tables first
                   (withPassTables tables view) view None None C).
  - unfold spawn. now rewrite P, P', M, C.
Qed.

(** ** Ordinary messages *)

Lemma shouldBePassed_ordinary_trace (message : Message) (flag : option bool)
    (parent : View) :
  fst (shouldBePassed message false flag parent) = [PassMessagesResolved parent.(cid)].
Proof.
  unfold shouldBePassed.
  destruct (result_passMessages parent) as [[] | e]; reflexivity.
Qed.

Lemma shouldBePassed_carries (message : Message) (isRoundTripMessage : bool)
    (flag : option bool) (parent : View) :
  Forall (carries message) (fst (shouldBePassed message isRoundTripMessage flag parent)).
Proof.
  destruct isRoundTripMessage; [constructor |].
  rewrite shouldBePassed_ordinary_trace. repeat constructor.
Qed.

(** Every event of the loop shows the message as it was spawned. *)
Lemma bubble_carries (message : Message) (isRoundTripMessage : bool) (parent : View) :
  forall (child : View) (flag : option bool),
    Forall (carries message) (fst (bubble message isRoundTripMessage child flag parent)).
Proof.
  induction parent as [parent IH] using View_chain_ind. intros child flag.
  pose proof (handleMessage_carries message isRoundTripMessage child parent) as C1.
  pose proof (shouldBePassed_carries message isRoundTripMessage flag parent) as C2.
  destruct (handleMessage message isRoundTripMessage child parent)
    as [t1 [r | e |]] eqn:H; simpl in C1.
  - now rewrite (bubble_returns _ _ _ _ _ _ _ H).
  - now rewrite (bubble_throws_handling _ _ _ _ _ _ _ H).
  - destruct (shouldBePassed message isRoundTripMessage flag parent)
      as [t2 [flag' | e]] eqn:S; simpl in C2.
    + destruct (truthy flag') eqn:T.
      * destruct parent.(_getParentView) as [next |] eqn:P.
        -- rewrite (bubble_up _ _ _ _ _ _ _ _ _ H S T P). simpl.
           apply Forall_app. split; [assumption |].
           apply Forall_app. split; [assumption |].
           apply (IH next eq_refl).
        -- rewrite (bubble_top _ _ _ _ _ _ _ _ H S P). simpl.
           apply Forall_app. now split.
      * rewrite (bubble_breaks _ _ _ _ _ _ _ _ H S T). simpl.
        apply Forall_app. now split.
    + rewrite (bubble_throws_passing _ _ _ _ _ _ _ _ H S). simpl.
      apply Forall_app. now split.
Qed.

Lemma spawn_object (view : View) (messageName : string) (messageData payload : Value) :
  spawn view (ByObject (Some messageName) messageData) payload
  = spawn view (ByName messageName) messageData.
Proof. reflexivity. Qed.

Lemma spawn_carries (view : View) (messageName : string) (payload : Value) :
  Forall (carries (newMessage view messageName payload))
         (fst (spawn view (ByName messageName) payload)).
Proof.
  destruct view.(_getParentView) as [first |] eqn:P.
  - rewrite (spawn_bubble _ _ _ _ P). simpl. constructor.
    + simpl. auto.
    + apply bubble_carries.
  - unfold spawn. rewrite P. simpl. repeat constructor.
Qed.

Lemma spawn_handler_arguments (view : View) (messageName : string) (payload : Value)
    (v : nat) (d : Value) (s : nat) (n : string) :
  In (HandlerCalled v d s n) (fst (spawn view (ByName messageName) payload)) ->
  d = (newMessage view messageName payload).(data)
  /\ s = view.(cid) /\ n = messageName.
Proof.
  intros I. pose proof (spawn_carries view messageName payload) as C.
  rewrite Forall_forall in C. exact (C _ I).
Qed.

(** C3, at the input where the code departs from it: the parent forwards
    message1 of the child and the handler of the grandparent is called with
    the child, the view of cid 1, as its source, not with the parent that
    forwarded the message. *)
Lemma forwarded_source_is_the_spawner :
  fst (spawn Fixture.passingChild (ByName "message1") Fixture.messageData)
  = [Triggered 1 "message1" Fixture.messageData;
     PassMessagesResolved 2;
     HashConsulted 3 "message1" 2;
     HandlerCalled 3 Fixture.messageData 1 "message1";
     PassMessagesResolved 3]
  /\ ~ In (HandlerCalled 3 Fixture.messageData 2 "message1")
          (fst (spawn Fixture.passingChild (ByName "message1") Fixture.messageData)).
Proof.
  split; [reflexivity |].
  intros I. apply spawn_handler_arguments in I. destruct I as (_ & S & _).
  discriminate.
Qed.

(** What the code does with the source: it is set once, to the view that
    spawns the message, and no turn of the loop assigns it again, so every
    handler called during a call of [spawn] gets the spawning view. *)
Theorem handlers_receive_spawning_view (view : View) (arg : SpawnArg)
    (payload : Value) (v : nat) (d : Value) (s : nat) (n : string) :
  In (HandlerCalled v d s n) (fst (spawn view arg payload)) -> s = view.(cid).
Proof.
  destruct arg as [messageName | [messageName |] messageData].
  - intros I. now apply spawn_handler_arguments in I.
  - rewrite spawn_object. intros I. now apply spawn_handler_arguments in I.
  - intros [].
Qed.

Lemma handlers_receive_spawning_view_witness : 1 = Fixture.passingChild.(cid).
Proof.
  apply (handlers_receive_spawning_view
           Fixture.passingChild (ByName "message1") Fixture.messageData
           3 Fixture.messageData 1 "message1").
  simpl. auto 6.
Defined.

(** C4, at the input where the code departs from it: the parent passes
    message1, the grandparent has no [passMessages] at all, and the message
    still goes on to the view above the grandparent, whose handler is
    called.  When the parent has no [passMessages] either, the message stops
    at the parent. *)
Theorem absent_passMessages_forwards_after_a_forward :
  spawn Fixture.silentGrandparentChild (ByName "message1") VUndefined
  = ([Triggered 1 "message1" (VObject []);
      PassMessagesResolved 2;
      PassMessagesResolved 3;
      HashConsulted 4 "message1" 3;
      HandlerCalled 4 (VObject []) 1 "message1";
      PassMessagesResolved 4],
     Normal VUndefined)
  /\ spawn Fixture.silentParentChild (ByName "message1") VUndefined
     = ([Triggered 1 "message1" (VObject []); PassMessagesResolved 2],
        Normal VUndefined).
Proof.
  split; reflexivity.
Qed.

(** A view without [passMessages] leaves [messageShouldBePassed] as the turn
    before set it. *)
Lemma absent_passMessages_keeps_flag (message : Message) (flag : option bool)
    (parent : View) :
  result_passMessages parent = Normal VUndefined ->
  shouldBePassed message false flag parent
  = ([PassMessagesResolved parent.(cid)], Normal flag).
Proof. unfold shouldBePassed. now intros ->. Qed.

(** A value of [passMessages] that is neither absent, nor a boolean, nor an
    array makes the turn throw. *)
Lemma shouldBePassed_rejects (message : Message) (flag : option bool)
    (parent : View) (table : Value) :
  result_passMessages parent = Normal table ->
  acceptedShape table = false ->
  shouldBePassed message false flag parent
  = ([PassMessagesResolved parent.(cid)], Throw passMessagesError).
Proof.
  unfold shouldBePassed. intros -> A. destruct table; try discriminate; reflexivity.
Qed.

Lemma shouldBePassed_accepts (message : Message) (flag : option bool)
    (parent : View) (table : Value) :
  result_passMessages parent = Normal table ->
  acceptedShape table = true ->
  exists flag',
    shouldBePassed message false flag parent
    = ([PassMessagesResolved parent.(cid)], Normal flag').
Proof.
  unfold shouldBePassed. intros -> A.
  destruct table; try discriminate; eexists; reflexivity.
Qed.

(** [spawn] throws the error of [passMessages] when an ancestor that the
    message reaches holds a value that is not accepted. *)
Lemma spawn_rejects (view first child ancestor : View) (flag : option bool)
    (messageName : string) (payload : Value) (t t1 : Trace) (table : Value) :
  isRoundTrip messageName = false ->
  view.(_getParentView) = Some first ->
  turns (newMessage view messageName payload) false
        (mkState view None first) t (mkState child flag ancestor) ->
  handleMessage (newMessage view messageName payload) false child ancestor = (t1, GoOn) ->
  result_passMessages ancestor = Normal table ->
  acceptedShape table = false ->
  spawn view (ByName messageName) payload
  = (Triggered view.(cid) messageName (newMessage view messageName payload).(data)
       :: t ++ t1 ++ [PassMessagesResolved ancestor.(cid)],
     Throw passMessagesError).
Proof.
  intros RT P T H R A.
  rewrite (spawn_bubble _ _ _ _ P), RT.
  pose proof (turns_bubbleFrom _ _ _ _ _ T) as E. unfold bubbleFrom in E. simpl in E.
  rewrite E.
  now rewrite (bubble_throws_passing _ _ _ _ _ _ _ _ H
                 (shouldBePassed_rejects _ flag _ _ R A)).
Qed.

(** C6 as stated fails: the parent holds a hash whose entry for message1 is
    the plain string message2; the message of the child is not forwarded
    under that name, [spawn] throws at the parent and no handler of the
    grandparent is called. *)
Lemma renaming_table_throws :
  spawn Fixture.renamingChild (ByName "message1") Fixture.messageData
  = ([Triggered 1 "message1" Fixture.messageData; PassMessagesResolved 2],
     Throw passMessagesError)
  /\ forall d s n,
       ~ In (HandlerCalled 3 d s n)
            (fst (spawn Fixture.renamingChild (ByName "message1") Fixture.messageData)).
Proof.
  split; [reflexivity |].
  simpl. intros d s n [H | [H | []]]; discriminate.
Qed.

(** C6, amended: an ordinary message is never renamed while it bubbles.
    Every handler called during a call of [spawn] receives the name under
    which the message was spawned and its payload, untouched; and a pass
    table that is a key/directive hash or a plain string, at an ancestor
    that the message reaches, makes [spawn] throw the TypeError of
    [passMessages] instead of forwarding the message. *)
Theorem pass_table_cannot_rename (view : View) (messageName : string) (payload : Value) :
  (forall v d s n,
     In (HandlerCalled v d s n) (fst (spawn view (ByName messageName) payload)) ->
     n = messageName /\ d = (newMessage view messageName payload).(data))
  /\ (forall first child ancestor flag t t1 table,
        isRoundTrip messageName = false ->
        view.(_getParentView) = Some first ->
        turns (newMessage view messageName payload) false
              (mkState view None first) t (mkState child flag ancestor) ->
        handleMessage (newMessage view messageName payload) false child ancestor
        = (t1, GoOn) ->
        result_passMessages ancestor = Normal table ->
        (exists props, table = VObject props) \/ (exists newName, table = VStr newName) ->
        spawn view (ByName messageName) payload
        = (Triggered view.(cid) messageName (newMessage view messageName payload).(data)
             :: t ++ t1 ++ [PassMessagesResolved ancestor.(cid)],
           Throw passMessagesError)).
Proof.
  split.
  - intros v d s n I. apply spawn_handler_arguments in I. tauto.
  - intros first child ancestor flag t t1 table RT P T H R Shape.
    apply (spawn_rejects _ _ _ _ _ _ _ _ _ _ RT P T H R).
    destruct Shape as [[props ->] | [newName ->]]; reflexivity.
Qed.

Lemma pass_table_cannot_rename_witness :
  ("message1" = "message1" /\ Fixture.messageData = Fixture.messageData)
  /\ spawn Fixture.renamingChild (ByName "message1") Fixture.messageData
     = ([Triggered 1 "message1" Fixture.messageData; PassMessagesResolved 2],
        Throw passMessagesError).
Proof.
  split.
  - apply (proj1 (pass_table_cannot_rename Fixture.passingChild "message1"
                    Fixture.messageData)
             3 Fixture.messageData 1 "message1").
    simpl. auto 6.
  - apply (proj2 (pass_table_cannot_rename Fixture.renamingChild "message1"
                    Fixture.messageData)
             Fixture.renamingParent Fixture.renamingChild Fixture.renamingParent
             None [] [] Fixture.renamingTable); try reflexivity.
    + apply turns_here.
    + left. eexists. reflexivity.
Defined.

(** C9 as stated fails: a key/directive hash is one of the shapes that the
    claim lists as accepted, and [spawn] throws the TypeError at the parent
    that holds one. *)
Lemma mapping_table_throws :
  specRecognizedShape Fixture.mappingTable = true
  /\ spawn Fixture.mappingChild (ByName "message1") Fixture.messageData
     = ([Triggered 1 "message1" Fixture.messageData; PassMessagesResolved 2],
        Throw passMessagesError).
Proof.
  split; reflexivity.
Qed.

(** C9, amended: while an ordinary message bubbles, the TypeError of
    [passMessages] is thrown at an ancestor exactly when the resolved value
    of its [passMessages] is neither absent, nor a boolean, nor an array.
    A value of any other shape, a key/directive hash included, makes
    [spawn] throw the error there; an absent value, a boolean and an array
    are accepted and the turn sets [messageShouldBePassed] without
    throwing. *)
Theorem passMessages_error_iff_not_boolean_or_array
    (view first child ancestor : View) (flag : option bool)
    (messageName : string) (payload : Value) (t t1 : Trace) (table : Value) :
  let message := newMessage view messageName payload in
  isRoundTrip messageName = false ->
  view.(_getParentView) = Some first ->
  turns message false (mkState view None first) t (mkState child flag ancestor) ->
  handleMessage message false child ancestor = (t1, GoOn) ->
  result_passMessages ancestor = Normal table ->
  (acceptedShape table = false ->
     spawn view (ByName messageName) payload
     = (Triggered view.(cid) messageName message.(data)
          :: t ++ t1 ++ [PassMessagesResolved ancestor.(cid)],
        Throw passMessagesError))
  /\ (acceptedShape table = true ->
        exists flag',
          shouldBePassed message false flag ancestor
          = ([PassMessagesResolved ancestor.(cid)], Normal flag'))
  /\ (snd (shouldBePassed message false flag ancestor) = Throw passMessagesError
      <-> acceptedShape table = false).
Proof.
  intros message RT P T H R. split; [| split].
  - intros A. now apply (spawn_rejects _ _ _ _ _ _ _ _ _ _ RT P T H R).
  - intros A. now apply shouldBePassed_accepts with (table := table).
  - split.
    + intros E. destruct (acceptedShape table) eqn:A; [| reflexivity].
      destruct (shouldBePassed_accepts message flag _ _ R A) as [flag' S].
      rewrite S in E. discriminate.
    + intros A. now rewrite (shouldBePassed_rejects message flag _ _ R A).
Qed.

Lemma passMessages_error_iff_not_boolean_or_array_witness :
  spawn Fixture.mappingChild (ByName "message1") Fixture.messageData
  = ([Triggered 1 "message1" Fixture.messageData; PassMessagesResolved 2],
     Throw passMessagesError).
Proof.
  apply (proj1 (passMessages_error_iff_not_boolean_or_array
                  Fixture.mappingChild Fixture.mappingParent
                  Fixture.mappingChild Fixture.mappingParent None
                  "message1" Fixture.messageData [] [] Fixture.mappingTable
                  eq_refl eq_refl (turns_here _ _ _) eq_refl eq_refl)).
  reflexivity.
Defined.

Lemma contains_In (elems : list Value) (s : string) :
  contains elems s = true <-> In (VStr s) elems.
Proof.
  unfold contains. rewrite existsb_exists. split.
  - intros (v & I & E). destruct v; try discriminate.
    simpl in E. apply String.eqb_eq in E. now subst.
  - intros I. exists (VStr s). split; [assumption |]. simpl. apply String.eqb_refl.
Qed.

(** After its first half, the turn of an ordinary message resolves
    [passMessages]. *)
Lemma bubble_ordinary_resolves (message : Message) (child parent : View)
    (flag : option bool) (t1 : Trace) :
  handleMessage message false child parent = (t1, GoOn) ->
  exists rest,
    fst (bubble message false child flag parent)
    = t1 ++ PassMessagesResolved parent.(cid) :: rest.
Proof.
  intros H. pose proof (shouldBePassed_ordinary_trace message flag parent) as S1.
  destruct (shouldBePassed message false flag parent) as [t2 [flag' | e]] eqn:S;
    simpl in S1; subst t2.
  - destruct (truthy flag') eqn:T.
    + destruct parent.(_getParentView) as [next |] eqn:P.
      * rewrite (bubble_up _ _ _ _ _ _ _ _ _ H S T P). simpl. eexists. reflexivity.
      * rewrite (bubble_top _ _ _ _ _ _ _ _ H S P). simpl. eexists. reflexivity.
    + rewrite (bubble_breaks _ _ _ _ _ _ _ _ H S T). simpl. eexists. reflexivity.
  - rewrite (bubble_throws_passing _ _ _ _ _ _ _ _ H S). simpl. eexists. reflexivity.
Qed.

Lemma bubble_ordinary_nonempty (message : Message) (child parent : View)
    (flag : option bool) :
  fst (bubble message false child flag parent) <> [].
Proof.
  pose proof (handleMessage_shape message false child parent) as Shape.
  destruct (handleMessage message false child parent) as [t1 [r | e |]] eqn:H;
    simpl in Shape.
  - rewrite (bubble_returns _ _ _ _ _ _ _ H). simpl.
    destruct Shape as [[_ ?] | [-> | ->]]; discriminate.
  - rewrite (bubble_throws_handling _ _ _ _ _ _ _ H). simpl.
    destruct Shape as [[_ ?] | [-> | ->]]; discriminate.
  - destruct (bubble_ordinary_resolves message child parent flag t1 H) as [rest ->].
    now destruct t1.
Qed.

(** The two ways in which the turn of an ordinary message ends without
    throwing. *)
Lemma turn_forwards_or_stops (message : Message) (child parent nextParent : View)
    (flag flag' : option bool) (t1 : Trace) :
  handleMessage message false child parent = (t1, GoOn) ->
  parent.(_getParentView) = Some nextParent ->
  shouldBePassed message false flag parent
  = ([PassMessagesResolved parent.(cid)], Normal flag') ->
  (forwardsFrom message child flag parent nextParent t1 <-> truthy flag' = true)
  /\ (stopsAt message child flag parent t1 <-> truthy flag' = false).
Proof.
  intros H P S. unfold forwardsFrom, stopsAt.
  destruct (truthy flag') eqn:T.
  - assert (F : flag' = Some true) by (destruct flag' as [[|]|]; now try discriminate).
    subst flag'.
    rewrite (bubble_up _ _ _ _ _ _ _ _ _ H S T P). simpl. split; split; try easy.
    intros E. injection E as E _. apply app_inv_head in E. injection E as E.
    now apply bubble_ordinary_nonempty in E.
  - rewrite (bubble_breaks _ _ _ _ _ _ _ _ H S T). split; split; try easy.
    intros E. injection E as E _. apply app_inv_head in E. injection E as E.
    symmetry in E. now apply bubble_ordinary_nonempty in E.
Qed.

(** C10: at an ancestor whose resolved [passMessages] is an array, an
    ordinary message is forwarded exactly when its name is an element of the
    array, elements being compared as plain strings; when it is a boolean,
    exactly when the boolean is true.  Forwarding hands the same message,
    name and payload, to the view above. *)
Theorem array_or_boolean_passMessages_forward
    (message : Message) (child parent nextParent : View) (flag : option bool)
    (t1 : Trace) :
  handleMessage message false child parent = (t1, GoOn) ->
  parent.(_getParentView) = Some nextParent ->
  (forall elems, result_passMessages parent = Normal (VArray elems) ->
     (forwardsFrom message child flag parent nextParent t1
      <-> In (VStr message.(name)) elems)
     /\ (stopsAt message child flag parent t1
         <-> ~ In (VStr message.(name)) elems))
  /\ (forall b, result_passMessages parent = Normal (VBool b) ->
        (forwardsFrom message child flag parent nextParent t1 <-> b = true)
        /\ (stopsAt message child flag parent t1 <-> b = false)).
Proof.
  intros H P. split.
  - intros elems R.
    assert (S : shouldBePassed message false flag parent
                = ([PassMessagesResolved parent.(cid)],
                   Normal (Some (contains elems message.(name)))))
      by (unfold shouldBePassed; now rewrite R).
    destruct (turn_forwards_or_stops _ _ _ _ _ _ _ H P S) as [F St].
    rewrite F, St. simpl. rewrite <- contains_In.
    destruct (contains elems message.(name)); split; split; congruence.
  - intros b R.
    assert (S : shouldBePassed message false flag parent
                = ([PassMessagesResolved parent.(cid)], Normal (Some b)))
      by (unfold shouldBePassed; now rewrite R).
    destruct (turn_forwards_or_stops _ _ _ _ _ _ _ H P S) as [F St].
    rewrite F, St. simpl. destruct b; split; split; congruence.
Qed.

Lemma array_or_boolean_passMessages_forward_witness :
  forwardsFrom (Fixture.messageNamed "message1") Fixture.childView None
               Fixture.listingParent (Fixture.hearing "message1" Fixture.grandparentView) []
  /\ stopsAt (Fixture.messageNamed "message1") Fixture.childView None
             Fixture.starParent [].
Proof.
  split.
  - destruct (array_or_boolean_passMessages_forward
                (Fixture.messageNamed "message1") Fixture.childView
                Fixture.listingParent (Fixture.hearing "message1" Fixture.grandparentView)
                None [] eq_refl eq_refl) as [A _].
    destruct (A [VStr "keyup"; VStr "message1"] eq_refl) as [F _].
    apply F. simpl. auto.
  - destruct (array_or_boolean_passMessages_forward
                (Fixture.messageNamed "message1") Fixture.childView
                Fixture.starParent (Fixture.hearing "message1" Fixture.grandparentView)
                None [] eq_refl eq_refl) as [A _].
    destruct (A [VStr "*"; VStr "message*"] eq_refl) as [_ S].
    apply S. simpl. intros [H | [H | []]]; discriminate.
Defined.

(** * Further properties of the code *)

(** ** The key splitter *)

Section CharRuns.

Variable p : ascii -> bool.

Lemma takeWhile_allChars (s : string) : allChars p (takeWhile p s) = true.
Proof.
  induction s as [| c s IH]; simpl; [reflexivity |].
  destruct (p c) eqn:E; simpl; [now rewrite E | reflexivity].
Qed.

Lemma takeWhile_dropWhile (s : string) : (takeWhile p s ++ dropWhile p s)%string = s.
Proof.
  induction s as [| c s IH]; simpl; [reflexivity |].
  destruct (p c); simpl; [now rewrite IH | reflexivity].
Qed.

Lemma dropWhile_idempotent (s : string) :
  dropWhile p (dropWhile p s) = dropWhile p s.
Proof.
  induction s as [| c s IH]; simpl; [reflexivity |].
  destruct (p c) eqn:E; [assumption | simpl; now rewrite E].
Qed.

Lemma takeWhile_after_dropWhile (s : string) :
  takeWhile p (dropWhile p s) = EmptyString.
Proof.
  induction s as [| c s IH]; simpl; [reflexivity |].
  destruct (p c) eqn:E; [assumption | simpl; now rewrite E].
Qed.

Lemma takeWhile_app (a b : string) :
  allChars p a = true -> takeWhile p b = EmptyString -> takeWhile p (a ++ b)%string = a.
Proof.
  induction a as [| c a IH]; simpl; [auto |].
  intros H E. apply andb_true_iff in H. destruct H as [Hc Ha].
  rewrite Hc. now rewrite IH.
Qed.

Lemma dropWhile_app (a b : string) :
  allChars p a = true -> dropWhile p (a ++ b)%string = dropWhile p b.
Proof.
  induction a as [| c a IH]; simpl; [auto |].
  intros H. apply andb_true_iff in H. destruct H as [Hc Ha].
  rewrite Hc. now apply IH.
Qed.

End CharRuns.

Lemma takeWhile_stops_at_whitespace (ws rest : string) :
  allChars isWhitespace ws = true ->
  (ws = EmptyString -> rest = EmptyString) ->
  takeWhile (fun c => negb (isWhitespace c)) (ws ++ rest)%string = EmptyString.
Proof.
  destruct ws as [| c ws]; simpl.
  - intros _ E. now rewrite E.
  - intros H _. apply andb_true_iff in H. destruct H as [Hc _]. now rewrite Hc.
Qed.

Lemma dropWhile_starts_with (p : ascii -> bool) (s : string) :
  dropWhile (fun c => negb (p c)) s = EmptyString
  \/ exists c rest, dropWhile (fun c => negb (p c)) s = String c rest /\ p c = true.
Proof.
  induction s as [| c s IH]; simpl; [now left |].
  destruct (p c) eqn:E; simpl; [| assumption].
  right. now exists c, s.
Qed.

(** The splitter cuts a key into a non-empty event name without whitespace
    and a qualifier, separated by a run of whitespace; these are the only
    keys that it matches, and it gives back both parts. *)
Theorem delegateEventSplitter_decomposes (key eventName subviewName : string) :
  delegateEventSplitter key = Some (eventName, subviewName)
  <-> eventName <> EmptyString
      /\ allChars (fun c => negb (isWhitespace c)) eventName = true
      /\ existsChar isLineTerminator subviewName = false
      /\ dropWhile isWhitespace subviewName = subviewName
      /\ exists ws,
           allChars isWhitespace ws = true
           /\ (ws = EmptyString -> subviewName = EmptyString)
           /\ key = (eventName ++ ws ++ subviewName)%string.
Proof.
  unfold delegateEventSplitter. split.
  - set (nonWhitespace := fun c => negb (isWhitespace c)).
    set (rest := dropWhile nonWhitespace key).
    destruct (takeWhile nonWhitespace key) as [| c ev] eqn:T; [discriminate |].
    destruct (existsChar isLineTerminator (dropWhile isWhitespace rest)) eqn:L;
      [discriminate |].
    intros E. injection E as <- <-.
    split; [discriminate |]. split.
    { rewrite <- T. apply takeWhile_allChars. }
    split; [assumption |]. split; [apply dropWhile_idempotent |].
    exists (takeWhile isWhitespace rest). split; [apply takeWhile_allChars |]. split.
    + intros W. unfold rest, nonWhitespace in *.
      destruct (dropWhile_starts_with isWhitespace key) as [E | (d & r & E & Hd)];
        rewrite E in *; [reflexivity |].
      cbn [takeWhile] in W. rewrite Hd in W. discriminate.
    + rewrite takeWhile_dropWhile, <- T. unfold rest, nonWhitespace.
      symmetry. apply takeWhile_dropWhile.
  - intros (Ne & Ev & L & D & ws & W & Sep & ->).
    rewrite (takeWhile_app _ eventName (ws ++ subviewName)%string Ev
               (takeWhile_stops_at_whitespace ws subviewName W Sep)).
    rewrite (dropWhile_app _ eventName (ws ++ subviewName)%string Ev).
    assert (R : dropWhile (fun c => negb (isWhitespace c)) (ws ++ subviewName)%string
                = (ws ++ subviewName)%string).
    { destruct ws as [| c ws]; simpl.
      - now rewrite (Sep eq_refl).
      - simpl in W. apply andb_true_iff in W. destruct W as [Hc _]. now rewrite Hc. }
    rewrite R, (dropWhile_app _ ws subviewName W), D, L.
    destruct eventName; [contradiction | reflexivity].
Qed.

Lemma matchingEntriesOf_malformed_key (hash : Hash) (message : Message)
    (view sourceView : View) (key : string) (v : Callback) :
  In (key, v) hash ->
  delegateEventSplitter key = None ->
  exists e, matchingEntriesOf hash message view sourceView = Throw e.
Proof.
  intros I N. induction hash as [| [k w] hash IH]; [destruct I |].
  simpl. destruct I as [E | I].
  - injection E as -> ->. rewrite N. now eexists.
  - destruct (IH I) as [e He]. rewrite He.
    destruct (delegateEventSplitter k) as [[en sn] |]; [| now eexists].
    destruct (eventNameRegEx_test en message.(name)); simpl; [| now eexists].
    destruct (String.eqb sn ""); [now eexists |].
    destruct (view.(_getChildViewNamed) sn) as [[child |] |]; try now eexists.
    destruct (Nat.eqb child sourceView.(cid)); now eexists.
Qed.

(** A key that is empty or begins with whitespace breaks the handling of
    every message at the view that holds it: the hash is consulted and the
    turn throws, whatever the message and wherever the key stands. *)
Theorem malformed_key_throws (message : Message) (isRoundTripMessage : bool)
    (child parent : View) (hash : Hash) (key : string) (v : Callback) :
  parent.(onMessages) = Some hash ->
  In (key, v) hash ->
  key = EmptyString \/ (exists c rest, key = String c rest /\ isWhitespace c = true) ->
  exists e,
    handleMessage message isRoundTripMessage child parent
    = ([HashConsulted parent.(cid) message.(name) child.(cid)], ThrowNow e).
Proof.
  intros O I Bad.
  assert (N : delegateEventSplitter key = None).
  { destruct Bad as [-> | (c & rest & -> & W)]; [reflexivity |].
    unfold delegateEventSplitter. simpl. now rewrite W. }
  destruct (matchingEntriesOf_malformed_key hash message parent child key v I N) as [e M].
  exists e. unfold handleMessage, getValueOfBestMatchingHashEntry. now rewrite O, M.
Qed.

Lemma malformed_key_throws_witness :
  exists e,
    handleMessage (Fixture.messageNamed "message1") false Fixture.childView
      (Fixture.withOnMessages
         [("message1", Named "onMessage1"); (" keyup", Named "onKeyup")]
         Fixture.parentView)
    = ([HashConsulted 2 "message1" 1], ThrowNow e).
Proof.
  apply (malformed_key_throws
           (Fixture.messageNamed "message1") false Fixture.childView
           (Fixture.withOnMessages
              [("message1", Named "onMessage1"); (" keyup", Named "onKeyup")]
              Fixture.parentView)
           [("message1", Named "onMessage1"); (" keyup", Named "onKeyup")]
           " keyup" (Named "onKeyup")).
  - reflexivity.
  - simpl. auto.
  - right. exists " "%char, "keyup". split; reflexivity.
Defined.

(** ** The event-name pattern *)

Lemma eventNameRegEx_test_star (c : ascii) (pattern messageName : string) :
  isStar c = true ->
  eventNameRegEx_test (String c pattern) messageName
  = eventNameRegEx_test pattern messageName
    || match messageName with
       | EmptyString => false
       | String d rest => isWordChar d && eventNameRegEx_test (String c pattern) rest
       end.
Proof.
  intros S. destruct messageName; simpl; now rewrite S.
Qed.

Lemma eventNameRegEx_test_char (c : ascii) (pattern messageName : string) :
  isStar c = false ->
  eventNameRegEx_test (String c pattern) messageName
  = match messageName with
    | EmptyString => false
    | String d rest => Ascii.eqb c d && eventNameRegEx_test pattern rest
    end.
Proof.
  intros S. simpl. now rewrite S.
Qed.

Lemma eventNameRegEx_test_instance (pattern : string) :
  forall messageName,
    eventNameRegEx_test pattern messageName = true -> instanceOf pattern messageName.
Proof.
  induction pattern as [| c pattern IH]; intros messageName.
  - destruct messageName; [constructor | discriminate].
  - destruct (isStar c) eqn:S.
    + induction messageName as [| d rest IHn];
        rewrite (eventNameRegEx_test_star _ _ _ S); intros H;
        apply orb_true_iff in H; destruct H as [H | H]; try discriminate.
      * apply (instance_star c pattern EmptyString EmptyString S eq_refl). now apply IH.
      * apply (instance_star c pattern EmptyString (String d rest) S eq_refl).
        now apply IH.
      * apply andb_true_iff in H. destruct H as [W H].
        specialize (IHn H). inversion IHn as [| ? ? ? S' | ? ? run m _ R M]; subst.
        -- congruence.
        -- apply (instance_star c pattern (String d run) m S); [| assumption].
           simpl. now rewrite W.
    + rewrite (eventNameRegEx_test_char _ _ _ S).
      destruct messageName as [| d rest]; [discriminate |]. intros H.
      apply andb_true_iff in H. destruct H as [E H].
      apply Ascii.eqb_eq in E. subst d. constructor; auto.
Qed.

Lemma instance_eventNameRegEx_test (pattern messageName : string) :
  instanceOf pattern messageName -> eventNameRegEx_test pattern messageName = true.
Proof.
  induction 1 as [| c pattern messageName S _ IH | c pattern run messageName S R _ IH].
  - reflexivity.
  - rewrite (eventNameRegEx_test_char _ _ _ S), IH, Ascii.eqb_refl. reflexivity.
  - induction run as [| d run IHr]; cbn [append].
    + rewrite (eventNameRegEx_test_star _ _ _ S), IH. reflexivity.
    + cbn [allChars] in R. apply andb_true_iff in R. destruct R as [W R].
      rewrite (eventNameRegEx_test_star _ _ _ S), W, (IHr R).
      apply orb_true_r.
Qed.

(** The test of an event name against a message name accepts exactly the
    names that the pattern stands for: the whole name is matched, each
    wildcard by a run of letters, digits and underscores. *)
Theorem eventNameRegEx_test_accepts_instances (pattern messageName : string) :
  eventNameRegEx_test pattern messageName = true <-> instanceOf pattern messageName.
Proof.
  split; [apply eventNameRegEx_test_instance | apply instance_eventNameRegEx_test].
Qed.

(** An event name without wildcard and without any character that is
    special in a regular expression matches its own name and no other. *)
Theorem eventNameRegEx_test_literal (pattern messageName : string) :
  plainEventName pattern = true ->
  wildcardCount pattern = 0 ->
  (eventNameRegEx_test pattern messageName = true <-> pattern = messageName).
Proof.
  intros _.
  revert messageName. induction pattern as [| c pattern IH]; intros messageName W.
  - destruct messageName; simpl; split; congruence.
  - simpl in W. destruct (isStar c) eqn:S; [discriminate |].
    rewrite (eventNameRegEx_test_char _ _ _ S).
    destruct messageName as [| d rest]; [split; discriminate |].
    rewrite andb_true_iff, Ascii.eqb_eq, (IH rest W). split.
    + intros [-> ->]. reflexivity.
    + intros E. injection E as -> ->. now split.
Qed.

Lemma eventNameRegEx_test_literal_witness :
  eventNameRegEx_test "selected" "selected" = true <-> "selected" = "selected".
Proof.
  apply (eventNameRegEx_test_literal "selected" "selected"); reflexivity.
Defined.

Lemma existsChar_app (p : ascii -> bool) (a b : string) :
  existsChar p (a ++ b)%string = existsChar p a || existsChar p b.
Proof.
  induction a as [| c a IH]; simpl; [reflexivity |].
  now rewrite IH, orb_assoc.
Qed.

Lemma allChars_existsChar (p : ascii -> bool) (c : ascii) (s : string) :
  allChars p s = true -> occursIn c s = true -> p c = true.
Proof.
  unfold occursIn. induction s as [| d s IH]; simpl; [discriminate |].
  intros A O. apply andb_true_iff in A. destruct A as [Pd A].
  apply orb_true_iff in O. destruct O as [E | O]; [| now apply IH].
  apply Ascii.eqb_eq in E. now subst.
Qed.

(** A character of the message name that is not a word character stands in
    the pattern itself. *)
Lemma instanceOf_keeps_other_characters (pattern messageName : string) (c : ascii) :
  instanceOf pattern messageName ->
  isWordChar c = false ->
  occursIn c messageName = true ->
  occursIn c pattern = true.
Proof.
  intros I NW. unfold occursIn.
  induction I as [| d pattern messageName S _ IH | d pattern run messageName S R _ IH];
    simpl; [auto | |].
  - intros O. apply orb_true_iff in O. destruct O as [E | O].
    + now rewrite E.
    + rewrite (IH O). apply orb_true_r.
  - rewrite existsChar_app. intros O. apply orb_true_iff in O. destruct O as [O | O].
    + pose proof (allChars_existsChar isWordChar c run R O). congruence.
    + rewrite (IH O). apply orb_true_r.
Qed.

Lemma lastChar_occurs (s : string) (c : ascii) :
  lastChar s = Some c -> occursIn c s = true.
Proof.
  unfold occursIn. induction s as [| d s IH]; [discriminate |].
  destruct s as [| d' s'].
  - simpl. intros E. injection E as ->. now rewrite Ascii.eqb_refl.
  - intros E. change (lastChar (String d' s') = Some c) in E.
    specialize (IH E).
    change (Ascii.eqb c d || existsChar (Ascii.eqb c) (String d' s') = true).
    rewrite IH. apply orb_true_r.
Qed.

(** The name of a round-trip message is a name followed by ['!']. *)
Theorem isRoundTrip_ends_with_bang (messageName : string) :
  isRoundTrip messageName = true
  <-> exists prefix, messageName = (prefix ++ "!")%string.
Proof.
  unfold isRoundTrip. split.
  - induction messageName as [| c s IH]; [discriminate |].
    destruct s as [| d s'].
    + simpl. intros E. apply Ascii.eqb_eq in E. subst. now exists EmptyString.
    + intros E. change (lastChar (String c (String d s'))) with (lastChar (String d s')) in E.
      destruct (IH E) as [prefix ->]. now exists (String c prefix).
  - intros [prefix ->]. induction prefix as [| c prefix IH]; [reflexivity |].
    simpl. destruct (prefix ++ "!")%string eqn:E; [| assumption].
    destruct prefix; discriminate.
Qed.

(** Among the keys whose event name holds no character that is special in a
    regular expression other than ['*'], only one that holds ['!'] can match
    a round-trip message: a wildcard does not stand for the final ['!'], so
    a key such as ['*'] never handles a round-trip message. *)
Theorem roundtrip_needs_bang_in_pattern (pattern messageName : string) :
  plainEventName pattern = true ->
  isRoundTrip messageName = true ->
  eventNameRegEx_test pattern messageName = true ->
  occursIn "!"%char pattern = true.
Proof.
  intros _ RT T. apply eventNameRegEx_test_instance in T.
  apply (instanceOf_keeps_other_characters pattern messageName "!"%char T eq_refl).
  unfold isRoundTrip in RT.
  destruct (lastChar messageName) as [c |] eqn:L; [| discriminate].
  apply Ascii.eqb_eq in RT. subst c. now apply lastChar_occurs.
Qed.

Lemma roundtrip_needs_bang_in_pattern_witness :
  occursIn "!"%char "give*!" = true.
Proof.
  apply (roundtrip_needs_bang_in_pattern "give*!" "giveMeInfo!"); reflexivity.
Defined.

(** ** The matcher *)

Lemma matchingEntriesOf_filter_map (hash : Hash) (message : Message)
    (view sourceView : View) (entries : list Entry) :
  matchingEntriesOf hash message view sourceView = Normal entries ->
  entries = map entryOfKey (filter (keyMatches message view sourceView) hash).
Proof.
  revert entries. induction hash as [| [key v] hash IH]; intros entries H.
  - simpl in H. now injection H as <-.
  - cbn [matchingEntriesOf] in H. cbn [filter].
    destruct (delegateEventSplitter key) as [[en sn] |] eqn:Split; [| discriminate].
    assert (EK : entryOfKey (key, v) = mkEntry en sn v)
      by (unfold entryOfKey; simpl; now rewrite Split).
    assert (KM : keyMatches message view sourceView (key, v)
                 = eventNameRegEx_test en message.(name)
                   && (String.eqb sn ""
                       || match view.(_getChildViewNamed) sn with
                          | Normal (Some child) => Nat.eqb child sourceView.(cid)
                          | _ => false
                          end))
      by (unfold keyMatches; simpl; now rewrite Split).
    rewrite KM. clear KM.
    assert (Push : forall es,
               match matchingEntriesOf hash message view sourceView with
               | Normal entries0 => Normal (mkEntry en sn v :: entries0)
               | Throw e0 => Throw e0
               end = Normal es ->
               es = map entryOfKey
                      ((key, v) :: filter (keyMatches message view sourceView) hash)).
    { intros es E.
      destruct (matchingEntriesOf hash message view sourceView) as [es0 |];
        [| discriminate].
      injection E as <-. cbn [map]. rewrite EK. f_equal. now apply IH. }
    destruct (eventNameRegEx_test en message.(name)); cbn [negb andb] in *;
      [| now apply IH].
    destruct (String.eqb sn ""); cbn [orb]; [now apply Push |].
    destruct (view.(_getChildViewNamed) sn) as [[child |] |];
      [| now apply IH | discriminate].
    destruct (Nat.eqb child sourceView.(cid)); [now apply Push | now apply IH].
Qed.

(** When the loop over the keys ends without throwing, the entries that it
    has collected are those of the keys that match, in the order of the
    keys. *)
Theorem matchingEntriesOf_filters (hash : Hash) (message : Message)
    (view sourceView : View) (entries : list Entry) :
  matchingEntriesOf hash message view sourceView = Normal entries ->
  entries = map entryOfKey (filter (keyMatches message view sourceView) hash).
Proof. apply matchingEntriesOf_filter_map. Qed.

Lemma matchingEntriesOf_filters_witness :
  [mkEntry "me*" "child1" (Named "onMe"); mkEntry "*" "" (Named "onAny")]
  = map entryOfKey
      (filter (keyMatches (Fixture.messageNamed "message1")
                          Fixture.namingParentView Fixture.childView)
              [("me* child1", Named "onMe"); ("message1 child2", Named "onOther");
               ("keyup", Named "onKeyup"); ("*", Named "onAny")]).
Proof.
  apply (matchingEntriesOf_filters
           [("me* child1", Named "onMe"); ("message1 child2", Named "onOther");
            ("keyup", Named "onKeyup"); ("*", Named "onAny")]
           (Fixture.messageNamed "message1") Fixture.namingParentView Fixture.childView).
  reflexivity.
Defined.

(** With the default [_getChildViewNamed], the matcher does not throw on a
    hash whose keys are all matched by the splitter and have an event name
    without any character that is special in a regular expression other
    than ['*']. *)
Theorem default_lookup_never_throws (hash : Hash) (message : Message)
    (view sourceView : View) (subviews : option (list (string * nat))) :
  view.(_getChildViewNamed) = default_getChildViewNamed subviews ->
  (forall key v, In (key, v) hash ->
     exists eventName subviewName,
       delegateEventSplitter key = Some (eventName, subviewName)
       /\ plainEventName eventName = true) ->
  matchingEntriesOf hash message view sourceView
  = Normal (map entryOfKey (filter (keyMatches message view sourceView) hash)).
Proof.
  intros D Plain.
  assert (WF : forall key v, In (key, v) hash -> delegateEventSplitter key <> None).
  { intros key v I. destruct (Plain key v I) as (en & sn & -> & _). discriminate. }
  clear Plain.
  assert (N : exists entries, matchingEntriesOf hash message view sourceView = Normal entries).
  { induction hash as [| [key v] hash IH]; simpl; [now eexists |].
    destruct IH as [es E]; [intros k w I; apply (WF k w); now right |].
    rewrite E, D.
    destruct (delegateEventSplitter key) as [[en sn] |] eqn:Split;
      [| now destruct (WF key v (or_introl eq_refl))].
    destruct (eventNameRegEx_test en message.(name)); simpl; [| now eexists].
    destruct (String.eqb sn ""); [now eexists |].
    unfold default_getChildViewNamed.
    destruct subviews as [table |]; [| now eexists].
    destruct (lookup sn table) as [child |]; [| now eexists].
    destruct (Nat.eqb child sourceView.(cid)); now eexists. }
  destruct N as [entries E]. rewrite E. f_equal.
  now apply matchingEntriesOf_filter_map.
Qed.

Lemma default_lookup_never_throws_witness :
  matchingEntriesOf [("me* child1", Named "onMe"); ("* child3", Named "onAny")]
                    (Fixture.messageNamed "message1")
                    Fixture.namingParentView Fixture.childView
  = Normal (map entryOfKey
              (filter (keyMatches (Fixture.messageNamed "message1")
                                  Fixture.namingParentView Fixture.childView)
                      [("me* child1", Named "onMe"); ("* child3", Named "onAny")])).
Proof.
  apply (default_lookup_never_throws
           [("me* child1", Named "onMe"); ("* child3", Named "onAny")]
           (Fixture.messageNamed "message1") Fixture.namingParentView Fixture.childView
           (Some [("child1", 1); ("child2", 5)])).
  - reflexivity.
  - intros key v [E | [E | []]]; injection E as <- _;
      eexists; eexists; split; reflexivity.
Defined.

(** A view that keeps no [subviews] object and does not override
    [_getChildViewNamed] takes no key with a child-name qualifier. *)
Theorem no_subviews_no_qualified_entry (hash : Hash) (message : Message)
    (view sourceView : View) (entries : list Entry) (e : Entry) :
  view.(_getChildViewNamed) = default_getChildViewNamed None ->
  matchingEntriesOf hash message view sourceView = Normal entries ->
  In e entries ->
  hasSubviewQualifier e = false.
Proof.
  intros D M I.
  destruct (matchingEntriesOf_sound hash message view sourceView entries e M I)
    as (key & _ & _ & _ & [Q | Q]).
  - unfold hasSubviewQualifier. now rewrite Q.
  - rewrite D in Q. discriminate.
Qed.

Lemma no_subviews_no_qualified_entry_witness :
  hasSubviewQualifier (mkEntry "message1" "" (Named "onAny")) = false.
Proof.
  apply (no_subviews_no_qualified_entry
           [("message1 child1", Named "onChild1"); ("message1", Named "onAny")]
           (Fixture.messageNamed "message1") Fixture.parentView Fixture.childView
           [mkEntry "message1" "" (Named "onAny")]
           (mkEntry "message1" "" (Named "onAny"))).
  - reflexivity.
  - reflexivity.
  - simpl. auto.
Defined.

(** The head of the sort is the first element, in the order of the list,
    whose criterion is the least. *)
Lemma sortBy_first_least (A : Type) (criterion : A -> Z) (l : list A) (b : A)
    (r : list A) :
  sortBy l criterion = b :: r ->
  exists before after,
    l = before ++ b :: after
    /\ (forall x, In x before -> (criterion b < criterion x)%Z)
    /\ (forall x, In x after -> (criterion b <= criterion x)%Z).
Proof.
  revert b r. induction l as [| x l IH]; simpl; intros b r H; [discriminate |].
  destruct (sortBy l criterion) as [| z r'] eqn:S.
  - apply sortBy_nil in S. subst l. simpl in H. injection H as <- <-.
    exists [], []. repeat split; intros y [].
  - destruct (IH z r' eq_refl) as (bf & af & -> & Lt & Le).
    simpl in H. destruct (criterion x <=? criterion z)%Z eqn:C.
    + apply Z.leb_le in C. injection H as <- <-.
      exists [], (bf ++ z :: af). repeat split; [intros y [] |].
      intros y I. apply in_app_or in I. destruct I as [I | [<- | I]].
      * specialize (Lt y I). lia.
      * assumption.
      * specialize (Le y I). lia.
    + apply Z.leb_gt in C. injection H as <- <-.
      exists (x :: bf), af. repeat split; [| assumption].
      intros y [<- | I]; [assumption | now apply Lt].
Qed.

(** Among the matching entries of the greatest specificity, the one whose
    key comes first in the hash is selected: every entry before the selected
    one is strictly less specific, no entry after it is more specific. *)
Theorem bestMatchingEntry_first_of_the_best (entries : list Entry) (best : Entry) :
  bestMatchingEntry entries = Some best ->
  exists before after,
    entries = before ++ best :: after
    /\ (forall e, In e before -> (specificity e < specificity best)%Z)
    /\ (forall e, In e after -> (specificity e <= specificity best)%Z).
Proof.
  unfold bestMatchingEntry.
  destruct (1 <? List.length entries)%nat eqn:E.
  - destruct (sortBy entries _) as [| b r] eqn:S; [discriminate |].
    intros H. injection H as <-.
    destruct (sortBy_first_least _ _ _ _ _ S) as (bf & af & -> & Lt & Le).
    exists bf, af. repeat split.
    + intros e I. specialize (Lt e I). simpl in Lt. lia.
    + intros e I. specialize (Le e I). simpl in Le. lia.
  - apply Nat.ltb_ge in E.
    destruct entries as [| b [| c r]]; simpl in *; try discriminate; try lia.
    intros H. injection H as <-. exists [], []. repeat split; intros e [].
Qed.

Lemma bestMatchingEntry_first_of_the_best_witness :
  exists before after,
    [mkEntry "*" "" (Named "onAny"); mkEntry "me*" "" (Named "onFirst");
     mkEntry "*e1" "" (Named "onSecond")]
    = before ++ mkEntry "me*" "" (Named "onFirst") :: after
    /\ (forall e, In e before
                  -> (specificity e < specificity (mkEntry "me*" "" (Named "onFirst")))%Z)
    /\ (forall e, In e after
                  -> (specificity e <= specificity (mkEntry "me*" "" (Named "onFirst")))%Z).
Proof.
  apply (bestMatchingEntry_first_of_the_best
           [mkEntry "*" "" (Named "onAny"); mkEntry "me*" "" (Named "onFirst");
            mkEntry "*e1" "" (Named "onSecond")]
           (mkEntry "me*" "" (Named "onFirst"))).
  reflexivity.
Defined.

Lemma bestMatchingEntry_single_wildcard_witness :
  nonWildcardCount "*" <= nonWildcardCount "me*".
Proof.
  refine (bestMatchingEntry_single_wildcard
            [mkEntry "*" "" (Named "h2"); mkEntry "me*" "" (Named "h1")]
            (mkEntry "me*" "" (Named "h1")) _ _ _
            (mkEntry "*" "" (Named "h2")) _).
  - intros e [<- | [<- | []]]; simpl; lia.
  - intros e [<- | [<- | []]]; reflexivity.
  - reflexivity.
  - simpl. auto.
Defined.

(** ** What spawn returns and throws *)

Lemma handleMessage_ordinary_goes_on (message : Message) (child parent : View) :
  snd (handleMessage message false child parent) = GoOn
  \/ exists e, snd (handleMessage message false child parent) = ThrowNow e.
Proof.
  unfold handleMessage.
  destruct parent.(onMessages) as [hash |]; simpl; [| now left].
  destruct (getValueOfBestMatchingHashEntry hash message parent child) as [value | e];
    simpl; [| right; now eexists].
  destruct value as [m | n |]; simpl; [| | now left].
  - destruct (m message.(data) message.(source) message.(name)); simpl;
      [now left | right; now eexists].
  - destruct (lookup n parent.(members)) as [[m |] |]; simpl;
      try (right; now eexists).
    destruct (m message.(data) message.(source) message.(name)); simpl;
      [now left | right; now eexists].
Qed.

Lemma bubble_ordinary_leaves_or_throws (message : Message) (parent : View) :
  forall (child : View) (flag : option bool),
    snd (bubble message false child flag parent) = Leaves
    \/ exists e, snd (bubble message false child flag parent) = Throws e.
Proof.
  induction parent as [parent IH] using View_chain_ind. intros child flag.
  pose proof (handleMessage_ordinary_goes_on message child parent) as G.
  destruct (handleMessage message false child parent) as [t1 [r | e |]] eqn:H;
    simpl in G.
  - destruct G as [G | [e G]]; discriminate.
  - rewrite (bubble_throws_handling _ _ _ _ _ _ _ H). right. now eexists.
  - destruct (shouldBePassed message false flag parent) as [t2 [flag' | e]] eqn:S.
    + destruct (truthy flag') eqn:T.
      * destruct parent.(_getParentView) as [next |] eqn:P.
        -- rewrite (bubble_up _ _ _ _ _ _ _ _ _ H S T P). simpl.
           apply (IH next eq_refl).
        -- rewrite (bubble_top _ _ _ _ _ _ _ _ H S P). now left.
      * rewrite (bubble_breaks _ _ _ _ _ _ _ _ H S T). now left.
    + rewrite (bubble_throws_passing _ _ _ _ _ _ _ _ H S). right. now eexists.
Qed.

(** [spawn] gives nothing back for an ordinary message: whatever the
    handlers return, it returns [undefined], unless it throws. *)
Theorem ordinary_spawn_returns_undefined (view : View) (messageName : string)
    (payload : Value) :
  isRoundTrip messageName = false ->
  snd (spawn view (ByName messageName) payload) = Normal VUndefined
  \/ exists e, snd (spawn view (ByName messageName) payload) = Throw e.
Proof.
  intros RT. destruct view.(_getParentView) as [first |] eqn:P.
  - rewrite (spawn_bubble _ _ _ _ P), RT. simpl.
    destruct (bubble_ordinary_leaves_or_throws
                (newMessage view messageName payload) first view None) as [L | [e T]].
    + rewrite L. now left.
    + rewrite T. right. now eexists.
  - unfold spawn. rewrite P. simpl. rewrite RT. now left.
Qed.

Lemma ordinary_spawn_returns_undefined_witness :
  snd (spawn Cases.heardChild (ByName "message1") VUndefined) = Normal VUndefined
  \/ exists e, snd (spawn Cases.heardChild (ByName "message1") VUndefined) = Throw e.
Proof.
  apply (ordinary_spawn_returns_undefined Cases.heardChild "message1" VUndefined).
  reflexivity.
Defined.

(** [spawn], for a state that the loop reaches. *)
Lemma spawn_reaches (view first : View) (messageName : string) (payload : Value)
    (t : Trace) (s : LoopState) :
  view.(_getParentView) = Some first ->
  turns (newMessage view messageName payload) (isRoundTrip messageName)
        (mkState view None first) t s ->
  spawn view (ByName messageName) payload
  = (Triggered view.(cid) messageName (newMessage view messageName payload).(data)
       :: t ++ fst (bubbleFrom (newMessage view messageName payload)
                               (isRoundTrip messageName) s),
     match snd (bubbleFrom (newMessage view messageName payload)
                           (isRoundTrip messageName) s) with
     | Returns returnValue => Normal returnValue
     | Throws e => Throw e
     | Leaves => Normal VUndefined
     end).
Proof.
  intros P T. rewrite (spawn_bubble _ _ _ _ P).
  pose proof (turns_bubbleFrom _ _ _ _ _ T) as E. unfold bubbleFrom in E at 1.
  simpl in E. now rewrite E.
Qed.

(** An exception of a handler leaves [spawn] as it is: the loop ends with
    the call and [spawn] throws what the handler threw, for an ordinary
    message as for a round-trip one. *)
Theorem handler_exception_propagates
    (view first child ancestor : View) (flag : option bool)
    (messageName : string) (payload : Value) (t : Trace)
    (hash : Hash) (entries : list Entry) (best : Entry)
    (method : Handler) (e : Exn) :
  let message := newMessage view messageName payload in
  view.(_getParentView) = Some first ->
  turns message (isRoundTrip messageName)
        (mkState view None first) t (mkState child flag ancestor) ->
  ancestor.(onMessages) = Some hash ->
  matchingEntriesOf hash message ancestor child = Normal entries ->
  bestMatchingEntry entries = Some best ->
  resolveMethod ancestor best.(value) = Normal method ->
  method message.(data) message.(source) message.(name) = Throw e ->
  spawn view (ByName messageName) payload
  = (Triggered view.(cid) messageName message.(data)
       :: t ++ [HashConsulted ancestor.(cid) messageName child.(cid);
                HandlerCalled ancestor.(cid) message.(data) view.(cid) messageName],
     Throw e).
Proof.
  intros message P T O M B R C.
  rewrite (spawn_reaches _ _ _ _ _ _ P T). fold message. unfold bubbleFrom. simpl.
  assert (H : handleMessage message (isRoundTrip messageName) child ancestor
              = ([HashConsulted ancestor.(cid) messageName child.(cid);
                  HandlerCalled ancestor.(cid) message.(data) view.(cid) messageName],
                 ThrowNow e)).
  { unfold handleMessage, getValueOfBestMatchingHashEntry. rewrite O, M, B.
    destruct best.(value) as [m | n |] eqn:V; [| | discriminate];
      now rewrite R, C. }
  now rewrite (bubble_throws_handling _ _ _ _ _ _ _ H).
Qed.

Lemma handler_exception_propagates_witness :
  spawn Cases.savingChild (ByName "save") VUndefined
  = ([Triggered 1 "save" (VObject []);
      HashConsulted 2 "save" 1;
      HandlerCalled 2 (VObject []) 1 "save"],
     Throw Cases.diskFull).
Proof.
  apply (handler_exception_propagates
           Cases.savingChild Cases.failingParent Cases.savingChild Cases.failingParent
           None "save" VUndefined []
           [("save", Direct Cases.failing)]
           [mkEntry "save" "" (Direct Cases.failing)]
           (mkEntry "save" "" (Direct Cases.failing))
           Cases.failing Cases.diskFull);
    try reflexivity.
  apply turns_here.
Defined.

(** An entry that names a method which the view does not have makes [spawn]
    throw the error that names the method; no handler is called at that
    view and the message goes no further. *)
Theorem missing_method_throws
    (view first child ancestor : View) (flag : option bool)
    (messageName : string) (payload : Value) (t : Trace)
    (hash : Hash) (entries : list Entry) (best : Entry) (methodName : string) :
  let message := newMessage view messageName payload in
  view.(_getParentView) = Some first ->
  turns message (isRoundTrip messageName)
        (mkState view None first) t (mkState child flag ancestor) ->
  ancestor.(onMessages) = Some hash ->
  matchingEntriesOf hash message ancestor child = Normal entries ->
  bestMatchingEntry entries = Some best ->
  best.(value) = Named methodName ->
  lookup methodName ancestor.(members) = None ->
  spawn view (ByName messageName) payload
  = (Triggered view.(cid) messageName message.(data)
       :: t ++ [HashConsulted ancestor.(cid) messageName child.(cid)],
     Throw (missingMethodError methodName)).
Proof.
  intros message P T O M B V L.
  rewrite (spawn_reaches _ _ _ _ _ _ P T). fold message. unfold bubbleFrom. simpl.
  assert (H : handleMessage message (isRoundTrip messageName) child ancestor
              = ([HashConsulted ancestor.(cid) messageName child.(cid)],
                 ThrowNow (missingMethodError methodName))).
  { unfold handleMessage, getValueOfBestMatchingHashEntry. rewrite O, M, B, V.
    unfold resolveMethod. now rewrite L. }
  now rewrite (bubble_throws_handling _ _ _ _ _ _ _ H).
Qed.

Lemma missing_method_throws_witness :
  spawn Cases.selectedChild (ByName "selected") VUndefined
  = ([Triggered 1 "selected" (VObject []); HashConsulted 2 "selected" 1],
     Throw (missingMethodError "_onChildSelected")).
Proof.
  apply (missing_method_throws
           Cases.selectedChild Cases.forgetfulParent
           Cases.selectedChild Cases.forgetfulParent
           None "selected" VUndefined []
           [("selected", Named "_onChildSelected")]
           [mkEntry "selected" "" (Named "_onChildSelected")]
           (mkEntry "selected" "" (Named "_onChildSelected"))
           "_onChildSelected");
    try reflexivity.
  apply turns_here.
Defined.

(** A [passMessages] that is a function is called when an ordinary message
    has been through the first half of the turn at its view, and what the
    function throws is thrown by [spawn]. *)
Theorem passMessages_function_exception_propagates
    (view first child ancestor : View) (flag : option bool)
    (messageName : string) (payload : Value) (t t1 : Trace) (e : Exn) :
  let message := newMessage view messageName payload in
  isRoundTrip messageName = false ->
  view.(_getParentView) = Some first ->
  turns message false (mkState view None first) t (mkState child flag ancestor) ->
  handleMessage message false child ancestor = (t1, GoOn) ->
  ancestor.(passMessages) = PassFunction (Throw e) ->
  spawn view (ByName messageName) payload
  = (Triggered view.(cid) messageName message.(data)
       :: t ++ t1 ++ [PassMessagesResolved ancestor.(cid)],
     Throw e).
Proof.
  intros message RT P T H F. rewrite <- RT in T.
  rewrite (spawn_reaches _ _ _ _ _ _ P T), RT. fold message. unfold bubbleFrom. simpl.
  assert (S : shouldBePassed message false flag ancestor
              = ([PassMessagesResolved ancestor.(cid)], Throw e))
    by (unfold shouldBePassed, result_passMessages; now rewrite F).
  now rewrite (bubble_throws_passing _ _ _ _ _ _ _ _ H S).
Qed.

Lemma passMessages_function_exception_propagates_witness :
  spawn Cases.typingChild (ByName "keyup") VUndefined
  = ([Triggered 1 "keyup" (VObject []); PassMessagesResolved 2],
     Throw (UserThrown VNull)).
Proof.
  apply (passMessages_function_exception_propagates
           Cases.typingChild Cases.throwingPassParent
           Cases.typingChild Cases.throwingPassParent
           None "keyup" VUndefined [] [] (UserThrown VNull));
    try reflexivity.
  apply turns_here.
Defined.

(** ** Where a message goes *)

Lemma truthy_Some_true (flag : option bool) : truthy flag = true -> flag = Some true.
Proof. destruct flag as [[|] |]; now try discriminate. Qed.

(** The loop keeps its variables in step: at the head of every turn
    [curParent] is the parent of [curChild], and from the second turn on
    [messageShouldBePassed] is [true]. *)
Theorem loop_invariant (message : Message) (isRoundTripMessage : bool)
    (view first : View) (t : Trace) (s : LoopState) :
  view.(_getParentView) = Some first ->
  turns message isRoundTripMessage (mkState view None first) t s ->
  s.(curChild).(_getParentView) = Some s.(curParent)
  /\ (s = mkState view None first \/ s.(messageShouldBePassed) = Some true).
Proof.
  intros P T.
  assert (G : forall s0 t0 s1,
             turns message isRoundTripMessage s0 t0 s1 ->
             s0.(curChild).(_getParentView) = Some s0.(curParent) ->
             s1.(curChild).(_getParentView) = Some s1.(curParent)
             /\ (s1 = s0 \/ s1.(messageShouldBePassed) = Some true)).
  { clear. induction 1 as [s0 | s0 t0 s1 t1 s2 Step _ IH]; intros I; [auto |].
    destruct Step as [c f p t1' t2' f' next H1 H2 H3 H4]. simpl in *.
    destruct (IH H4) as [I2 [-> | F]]; split; auto.
    right. simpl. now apply truthy_Some_true. }
  exact (G _ _ _ T P).
Qed.

Lemma loop_invariant_witness :
  Cases.passingParent.(_getParentView) = Some Cases.hearingGrandparent
  /\ (mkState Cases.passingParent (Some true) Cases.hearingGrandparent
      = mkState Fixture.passingChild None Cases.passingParent
      \/ Some true = Some true).
Proof.
  apply (loop_invariant (Fixture.messageNamed "message1") false
           Fixture.passingChild Cases.passingParent [PassMessagesResolved 2]
           (mkState Cases.passingParent (Some true) Cases.hearingGrandparent)).
  - reflexivity.
  - apply (turns_more _ _ _ [PassMessagesResolved 2]
             (mkState Cases.passingParent (Some true) Cases.hearingGrandparent)
             [] _); [| apply turns_here].
    apply (turn_up _ _ _ _ _ [] [PassMessagesResolved 2] (Some true)); reflexivity.
Defined.

Lemma ancestorsOf_parent (view parent : View) :
  view.(_getParentView) = Some parent ->
  ancestorsOf view = parent :: ancestorsOf parent.
Proof.
  destruct view as [id om pm mem gc par]. simpl. now intros ->.
Qed.

Lemma bubble_stays_above (message : Message) (isRoundTripMessage : bool)
    (parent : View) :
  forall (child : View) (flag : option bool) (e : Event),
    In e (fst (bubble message isRoundTripMessage child flag parent)) ->
    In (eventView e) (map cid (parent :: ancestorsOf parent)).
Proof.
  induction parent as [parent IH] using View_chain_ind. intros child flag e.
  assert (H1 : forall x, In x (fst (handleMessage message isRoundTripMessage child parent)) ->
                         eventView x = parent.(cid)).
  { destruct (handleMessage_shape message isRoundTripMessage child parent)
      as [[-> _] | [-> | ->]]; simpl; intuition (subst; reflexivity). }
  assert (H2 : forall x, In x (fst (shouldBePassed message isRoundTripMessage flag parent)) ->
                         eventView x = parent.(cid)).
  { destruct isRoundTripMessage; [intros x [] |].
    rewrite shouldBePassed_ordinary_trace. intros x [<- | []]. reflexivity. }
  assert (Here : forall x t, (forall y, In y t -> eventView y = parent.(cid)) -> In x t ->
                 In (eventView x) (map cid (parent :: ancestorsOf parent))).
  { intros x t A I. left. symmetry. now apply A. }
  destruct (handleMessage message isRoundTripMessage child parent)
    as [t1 [r | x |]] eqn:H; simpl in H1.
  - rewrite (bubble_returns _ _ _ _ _ _ _ H). simpl. now apply Here.
  - rewrite (bubble_throws_handling _ _ _ _ _ _ _ H). simpl. now apply Here.
  - destruct (shouldBePassed message isRoundTripMessage flag parent)
      as [t2 [flag' | x]] eqn:S; simpl in H2.
    + destruct (truthy flag') eqn:T.
      * destruct parent.(_getParentView) as [next |] eqn:P.
        -- rewrite (bubble_up _ _ _ _ _ _ _ _ _ H S T P). simpl.
           rewrite (ancestorsOf_parent parent next P).
           intros I. apply in_app_or in I. destruct I as [I | I];
             [left; symmetry; now apply H1 |].
           apply in_app_or in I. destruct I as [I | I];
             [left; symmetry; now apply H2 |].
           right. exact (IH next eq_refl parent flag' e I).
        -- rewrite (bubble_top _ _ _ _ _ _ _ _ H S P). simpl.
           intros I. apply in_app_or in I. left. symmetry.
           destruct I as [I | I]; [now apply H1 | now apply H2].
      * rewrite (bubble_breaks _ _ _ _ _ _ _ _ H S T). simpl.
        intros I. apply in_app_or in I. left. symmetry.
        destruct I as [I | I]; [now apply H1 | now apply H2].
    + rewrite (bubble_throws_passing _ _ _ _ _ _ _ _ H S). simpl.
      intros I. apply in_app_or in I. left. symmetry.
      destruct I as [I | I]; [now apply H1 | now apply H2].
Qed.

(** A message only goes up: whatever [spawn] does, it does it on the
    spawning view or on one of the views above it. *)
Theorem spawn_stays_above (view : View) (arg : SpawnArg) (payload : Value) (e : Event) :
  In e (fst (spawn view arg payload)) ->
  In (eventView e) (map cid (view :: ancestorsOf view)).
Proof.
  assert (N : forall messageName messageData,
             In e (fst (spawn view (ByName messageName) messageData)) ->
             In (eventView e) (map cid (view :: ancestorsOf view))).
  { intros messageName messageData.
    destruct view.(_getParentView) as [first |] eqn:P.
    - rewrite (spawn_bubble _ _ _ _ P), (ancestorsOf_parent view first P). simpl.
      intros [<- | I]; [now left |]. right.
      exact (bubble_stays_above _ _ _ _ _ _ I).
    - unfold spawn. rewrite P. simpl. intros [<- | []]. now left. }
  destruct arg as [messageName | [messageName |] messageData].
  - apply N.
  - rewrite spawn_object. apply N.
  - intros [].
Qed.

Lemma spawn_stays_above_witness :
  In 3 (map cid (Fixture.passingChild :: ancestorsOf Fixture.passingChild)).
Proof.
  apply (spawn_stays_above Fixture.passingChild (ByName "message1") Fixture.messageData
           (HandlerCalled 3 Fixture.messageData 1 "message1")).
  simpl. auto 6.
Defined.

(** A parent without [passMessages] keeps the ordinary messages of its
    children to itself: whatever [spawn] does, it does it on the spawning
    view or on that parent, and nothing is returned. *)
Theorem parent_without_passMessages_stops (view first : View) (messageName : string)
    (payload : Value) :
  isRoundTrip messageName = false ->
  view.(_getParentView) = Some first ->
  result_passMessages first = Normal VUndefined ->
  (forall e, In e (fst (spawn view (ByName messageName) payload)) ->
             eventView e = view.(cid) \/ eventView e = first.(cid))
  /\ forall v d s n,
       In (HandlerCalled v d s n) (fst (spawn view (ByName messageName) payload)) ->
       v = first.(cid).
Proof.
  intros RT P R.
  assert (A : forall e, In e (fst (spawn view (ByName messageName) payload)) ->
                        e = Triggered view.(cid) messageName
                              (newMessage view messageName payload).(data)
                        \/ eventView e = first.(cid)).
  { rewrite (spawn_bubble _ _ _ _ P), RT. simpl.
    set (message := newMessage view messageName payload).
    assert (H1 : forall x, In x (fst (handleMessage message false view first)) ->
                           eventView x = first.(cid)).
    { destruct (handleMessage_shape message false view first)
        as [[-> _] | [-> | ->]]; simpl; intuition (subst; reflexivity). }
    intros e [<- | I]; [now left |]. right.
    destruct (handleMessage message false view first) as [t1 [r | x |]] eqn:H;
      simpl in H1.
    - rewrite (bubble_returns _ _ _ _ _ _ _ H) in I. now apply H1.
    - rewrite (bubble_throws_handling _ _ _ _ _ _ _ H) in I. now apply H1.
    - rewrite (bubble_breaks _ _ _ _ _ _ _ _ H
                 (absent_passMessages_keeps_flag message None first R) eq_refl) in I.
      simpl in I. apply in_app_or in I. destruct I as [I | [<- | []]];
        [now apply H1 | reflexivity]. }
  split.
  - intros e I. destruct (A e I) as [-> | E]; [now left | now right].
  - intros v d s n I. destruct (A _ I) as [E | E]; [discriminate | exact E].
Qed.

Lemma parent_without_passMessages_stops_witness :
  (forall e, In e (fst (spawn Cases.quietChild (ByName "message1") VUndefined)) ->
             eventView e = 1 \/ eventView e = 2)
  /\ forall v d s n,
       In (HandlerCalled v d s n)
          (fst (spawn Cases.quietChild (ByName "message1") VUndefined)) ->
       v = 2.
Proof.
  apply (parent_without_passMessages_stops Cases.quietChild Cases.quietParent
           "message1" VUndefined); reflexivity.
Defined.

(** Handling an ordinary message does not stop it: at a view whose handler
    has been called and whose [passMessages] is [true], the loop goes on
    with the same message at the view above. *)
Theorem handled_ordinary_message_goes_on
    (message : Message) (child parent nextParent : View) (flag : option bool)
    (hash : Hash) (entries : list Entry) (best : Entry)
    (method : Handler) (returnValue : Value) :
  parent.(onMessages) = Some hash ->
  matchingEntriesOf hash message parent child = Normal entries ->
  bestMatchingEntry entries = Some best ->
  resolveMethod parent best.(value) = Normal method ->
  method message.(data) message.(source) message.(name) = Normal returnValue ->
  result_passMessages parent = Normal (VBool true) ->
  parent.(_getParentView) = Some nextParent ->
  bubble message false child flag parent
  = ([HashConsulted parent.(cid) message.(name) child.(cid);
      HandlerCalled parent.(cid) message.(data) message.(source) message.(name);
      PassMessagesResolved parent.(cid)]
       ++ fst (bubble message false parent (Some true) nextParent),
     snd (bubble message false parent (Some true) nextParent)).
Proof.
  intros O M B R C Pass P.
  pose proof (handleMessage_best message false child parent hash entries best
                method returnValue O M B R C) as H.
  assert (S : shouldBePassed message false flag parent
              = ([PassMessagesResolved parent.(cid)], Normal (Some true)))
    by (unfold shouldBePassed; now rewrite Pass).
  now rewrite (bubble_up _ _ _ _ _ _ _ _ _ H S eq_refl P).
Qed.

Lemma handled_ordinary_message_goes_on_witness :
  bubble (Fixture.messageNamed "message1") false Cases.relayedChild None
         Cases.relayingParent
  = ([HashConsulted 2 "message1" 1;
      HandlerCalled 2 (VObject []) 1 "message1";
      PassMessagesResolved 2]
       ++ fst (bubble (Fixture.messageNamed "message1") false Cases.relayingParent
                      (Some true) Cases.hearingGrandparent),
     snd (bubble (Fixture.messageNamed "message1") false Cases.relayingParent
                 (Some true) Cases.hearingGrandparent)).
Proof.
  apply (handled_ordinary_message_goes_on
           (Fixture.messageNamed "message1") Cases.relayedChild Cases.relayingParent
           Cases.hearingGrandparent None
           [("message1", Direct (Fixture.returning (VStr "heard")))]
           [mkEntry "message1" "" (Direct (Fixture.returning (VStr "heard")))]
           (mkEntry "message1" "" (Direct (Fixture.returning (VStr "heard"))))
           (Fixture.returning (VStr "heard")) (VStr "heard")); reflexivity.
Defined.

(** ** The closest parent view in the DOM *)

(** Induction along the chain of parents of an element. *)
Lemma Element_chain_ind (P : Element -> Prop) :
  (forall e, (forall above, e.(parentElement) = Some above -> P above) -> P e) ->
  forall e, P e.
Proof.
  intros Step. fix IH 1. intros [n d [above |]]; apply Step; simpl.
  - intros q E. injection E as <-. apply IH.
  - intros q E. discriminate.
Qed.

Lemma elementsAbove_parent (e above : Element) :
  e.(parentElement) = Some above -> elementsAbove e = above :: elementsAbove above.
Proof.
  destruct e as [n d par]. simpl. now intros ->.
Qed.

Lemma elementsAbove_top (e : Element) :
  e.(parentElement) = None -> elementsAbove e = [].
Proof.
  destruct e as [n d par]. simpl. now intros ->.
Qed.

Lemma closestViewFrom_unfold (lastPossibleViewElement : option nat) (e : Element) :
  closestViewFrom lastPossibleViewElement e
  = if isLastPossibleViewElement lastPossibleViewElement e then None
    else if holdsRenderingView e then e.(dataView)
         else match e.(parentElement) with
              | None => None
              | Some above => closestViewFrom lastPossibleViewElement above
              end.
Proof.
  destruct e as [n d par]. unfold holdsRenderingView. simpl.
  destruct (isLastPossibleViewElement _ _); [reflexivity |].
  destruct d as [[v r] |]; [destruct r |]; reflexivity.
Qed.

Lemma closestViewFrom_finds_first (lastPossibleViewElement : option nat) (e : Element) :
  closestViewFrom lastPossibleViewElement e
  = match find holdsRenderingView
                (beforeBody lastPossibleViewElement (e :: elementsAbove e)) with
    | Some holder => holder.(dataView)
    | None => None
    end.
Proof.
  induction e as [e IH] using Element_chain_ind.
  rewrite closestViewFrom_unfold. cbn [beforeBody].
  destruct (isLastPossibleViewElement lastPossibleViewElement e); [reflexivity |].
  cbn [find]. destruct (holdsRenderingView e); [reflexivity |].
  destruct e.(parentElement) as [above |] eqn:P.
  - rewrite (elementsAbove_parent e above P). now apply IH.
  - now rewrite (elementsAbove_top e P).
Qed.

Lemma findClosestParentView_find (lastPossibleViewElement : option nat)
    (el : Element) :
  findClosestParentView lastPossibleViewElement el
  = match find holdsRenderingView
                (beforeBody lastPossibleViewElement (elementsAbove el)) with
    | Some holder => holder.(dataView)
    | None => None
    end.
Proof.
  unfold findClosestParentView. destruct el.(parentElement) as [above |] eqn:P.
  - rewrite (elementsAbove_parent el above P). apply closestViewFrom_finds_first.
  - now rewrite (elementsAbove_top el P).
Qed.

(** [findClosestParentView] returns the view held by the first element, going
    up from the parent of the element of the view and stopping before the
    body, that holds a view with a [render] function; and [null] when there
    is none. *)
Theorem findClosestParentView_finds_first (lastPossibleViewElement : option nat)
    (el : Element) :
  findClosestParentView lastPossibleViewElement el
  = match find holdsRenderingView
                (beforeBody lastPossibleViewElement (elementsAbove el)) with
    | Some holder => holder.(dataView)
    | None => None
    end.
Proof. apply findClosestParentView_find. Qed.






(** [prepareViewElement] never replaces a view that an element holds: of two
    views prepared on the same element, the first one stays. *)
Theorem prepareViewElement_first_stays (dataIsFunction : bool)
    (first second : AttachedView) (el : Element) :
  prepareViewElement dataIsFunction second
    (prepareViewElement dataIsFunction first el)
  = prepareViewElement dataIsFunction first el.
Proof.
  unfold prepareViewElement. destruct dataIsFunction; simpl; [| reflexivity].
  destruct el.(dataView) eqn:D; simpl; [now rewrite D | reflexivity].
Qed.

(** Once a view with a [render] function is prepared on an element that held
    none and is not the body, it is the parent view of every view whose
    element is a child of that element. *)
Theorem prepared_view_is_found (lastPossibleViewElement : option nat)
    (view : AttachedView) (holder el : Element) :
  holder.(dataView) = None ->
  view.(renderIsFunction) = true ->
  isLastPossibleViewElement lastPossibleViewElement holder = false ->
  el.(parentElement) = Some (prepareViewElement true view holder) ->
  findClosestParentView lastPossibleViewElement el = Some view.
Proof.
  intros D R B P. unfold findClosestParentView. rewrite P, closestViewFrom_unfold.
  unfold prepareViewElement. rewrite D. simpl.
  unfold isLastPossibleViewElement in *. simpl. rewrite B.
  unfold holdsRenderingView. simpl. now rewrite R.
Qed.

Lemma prepared_view_is_found_witness :
  findClosestParentView (Some 100)
    (mkElement 106 None
       (Some (prepareViewElement true (mkAttached 4 true) Cases.bareElement)))
  = Some (mkAttached 4 true).
Proof.
  apply (prepared_view_is_found (Some 100) (mkAttached 4 true) Cases.bareElement
           (mkElement 106 None
              (Some (prepareViewElement true (mkAttached 4 true) Cases.bareElement))));
    reflexivity.
Defined.

(** ** The source of the qualifiers and the trigger *)

Lemma bubble_consults_for_the_view_below (message : Message)
    (isRoundTripMessage : bool) (parent : View) :
  forall (child : View) (flag : option bool) (v c : nat) (n : string),
    In (HashConsulted v n c) (fst (bubble message isRoundTripMessage child flag parent)) ->
    (c = child.(cid) /\ v = parent.(cid))
    \/ exists x y,
         In x (parent :: ancestorsOf parent)
         /\ x.(_getParentView) = Some y /\ x.(cid) = c /\ y.(cid) = v.
Proof.
  induction parent as [parent IH] using View_chain_ind. intros child flag v c n.
  assert (H1 : In (HashConsulted v n c)
                  (fst (handleMessage message isRoundTripMessage child parent)) ->
               c = child.(cid) /\ v = parent.(cid)).
  { destruct (handleMessage_shape message isRoundTripMessage child parent)
      as [[-> _] | [-> | ->]]; simpl; intros I.
    - destruct I.
    - destruct I as [E | []]. injection E as -> _ ->. auto.
    - destruct I as [E | [E | []]]; [| discriminate]. injection E as -> _ ->. auto. }
  assert (H2 : ~ In (HashConsulted v n c)
                    (fst (shouldBePassed message isRoundTripMessage flag parent))).
  { destruct isRoundTripMessage; [intros [] |].
    rewrite shouldBePassed_ordinary_trace. intros [E | []]. discriminate. }
  destruct (handleMessage message isRoundTripMessage child parent)
    as [t1 [r | x |]] eqn:H; simpl in H1.
  - rewrite (bubble_returns _ _ _ _ _ _ _ H). simpl. auto.
  - rewrite (bubble_throws_handling _ _ _ _ _ _ _ H). simpl. auto.
  - destruct (shouldBePassed message isRoundTripMessage flag parent)
      as [t2 [flag' | x]] eqn:S; simpl in H2.
    + destruct (truthy flag') eqn:T.
      * destruct parent.(_getParentView) as [next |] eqn:P.
        -- rewrite (bubble_up _ _ _ _ _ _ _ _ _ H S T P). simpl.
           rewrite (ancestorsOf_parent parent next P).
           intros I. apply in_app_or in I. destruct I as [I | I]; [auto |].
           apply in_app_or in I. destruct I as [I | I]; [contradiction |].
           right. destruct (IH next eq_refl parent flag' v c n I)
             as [[-> ->] | (x & y & Ix & Px & Cx & Cy)].
           ++ exists parent, next. split; [now left | auto].
           ++ exists x, y. split; [now right | auto].
        -- rewrite (bubble_top _ _ _ _ _ _ _ _ H S P). simpl.
           intros I. apply in_app_or in I. destruct I as [I | I]; [auto | contradiction].
      * rewrite (bubble_breaks _ _ _ _ _ _ _ _ H S T). simpl.
        intros I. apply in_app_or in I. destruct I as [I | I]; [auto | contradiction].
    + rewrite (bubble_throws_passing _ _ _ _ _ _ _ _ H S). simpl.
      intros I. apply in_app_or in I. destruct I as [I | I]; [auto | contradiction].
Qed.

(** The child-name qualifier of a key is compared with the view just below
    the one that holds the key: whenever a hash is searched for a message,
    the source given to the search is the view whose parent holds the hash,
    be it the spawning view or a view that has passed the message on. *)
Theorem qualifier_is_matched_with_the_view_below (view : View) (arg : SpawnArg)
    (payload : Value) (v c : nat) (n : string) :
  In (HashConsulted v n c) (fst (spawn view arg payload)) ->
  exists below holder,
    In below (view :: ancestorsOf view)
    /\ below.(_getParentView) = Some holder
    /\ below.(cid) = c /\ holder.(cid) = v.
Proof.
  assert (N : forall messageName messageData,
             In (HashConsulted v n c) (fst (spawn view (ByName messageName) messageData)) ->
             exists below holder,
               In below (view :: ancestorsOf view)
               /\ below.(_getParentView) = Some holder
               /\ below.(cid) = c /\ holder.(cid) = v).
  { intros messageName messageData.
    destruct view.(_getParentView) as [first |] eqn:P.
    - rewrite (spawn_bubble _ _ _ _ P), (ancestorsOf_parent view first P). simpl.
      intros [E | I]; [discriminate |].
      destruct (bubble_consults_for_the_view_below _ _ _ _ _ _ _ _ I)
        as [[-> ->] | (x & y & Ix & Px & Cx & Cy)].
      + exists view, first. repeat split; auto.
      + exists x, y. repeat split; auto.
    - unfold spawn. rewrite P. simpl. intros [E | []]. discriminate. }
  destruct arg as [messageName | [messageName |] messageData].
  - apply N.
  - rewrite spawn_object. apply N.
  - intros [].
Qed.

Lemma qualifier_is_matched_with_the_view_below_witness :
  exists below holder,
    In below (Fixture.passingChild :: ancestorsOf Fixture.passingChild)
    /\ below.(_getParentView) = Some holder
    /\ below.(cid) = 2 /\ holder.(cid) = 3.
Proof.
  apply (qualifier_is_matched_with_the_view_below
           Fixture.passingChild (ByName "message1") Fixture.messageData 3 2 "message1").
  simpl. auto 6.
Defined.

Lemma bubble_triggers_nothing (message : Message) (isRoundTripMessage : bool)
    (parent : View) (v : nat) (n : string) (d : Value) :
  forall (child : View) (flag : option bool),
    ~ In (Triggered v n d) (fst (bubble message isRoundTripMessage child flag parent)).
Proof.
  induction parent as [parent IH] using View_chain_ind. intros child flag.
  assert (H1 : ~ In (Triggered v n d)
                    (fst (handleMessage message isRoundTripMessage child parent))).
  { destruct (handleMessage_shape message isRoundTripMessage child parent)
      as [[-> _] | [-> | ->]]; simpl; intuition discriminate. }
  assert (H2 : ~ In (Triggered v n d)
                    (fst (shouldBePassed message isRoundTripMessage flag parent))).
  { destruct isRoundTripMessage; [intros [] |].
    rewrite shouldBePassed_ordinary_trace. intros [E | []]. discriminate. }
  destruct (handleMessage message isRoundTripMessage child parent)
    as [t1 [r | x |]] eqn:H; simpl in H1.
  - now rewrite (bubble_returns _ _ _ _ _ _ _ H).
  - now rewrite (bubble_throws_handling _ _ _ _ _ _ _ H).
  - destruct (shouldBePassed message isRoundTripMessage flag parent)
      as [t2 [flag' | x]] eqn:S; simpl in H2.
    + destruct (truthy flag') eqn:T.
      * destruct parent.(_getParentView) as [next |] eqn:P.
        -- rewrite (bubble_up _ _ _ _ _ _ _ _ _ H S T P). simpl.
           intros I. apply in_app_or in I. destruct I as [I | I]; [contradiction |].
           apply in_app_or in I. destruct I as [I | I]; [contradiction |].
           exact (IH next eq_refl parent flag' I).
        -- rewrite (bubble_top _ _ _ _ _ _ _ _ H S P). simpl.
           intros I. apply in_app_or in I. tauto.
      * rewrite (bubble_breaks _ _ _ _ _ _ _ _ H S T). simpl.
        intros I. apply in_app_or in I. tauto.
    + rewrite (bubble_throws_passing _ _ _ _ _ _ _ _ H S). simpl.
      intros I. apply in_app_or in I. tauto.
Qed.

(** [spawn] triggers the message on the spawning view once, before anything
    else and whether or not a view above handles it, with the payload that
    the handlers get: an empty object when none is given. *)
Theorem spawn_triggers_once_first (view : View) (messageName : string)
    (payload : Value) :
  exists t,
    fst (spawn view (ByName messageName) payload)
    = Triggered view.(cid) messageName
        (match payload with VUndefined => VObject [] | d => d end) :: t
    /\ forall v n d, ~ In (Triggered v n d) t.
Proof.
  destruct view.(_getParentView) as [first |] eqn:P.
  - rewrite (spawn_bubble _ _ _ _ P). simpl. eexists. split; [reflexivity |].
    intros v n d. apply bubble_triggers_nothing.
  - unfold spawn. rewrite P. simpl. exists []. split; [reflexivity |].
    intros v n d [].
Qed.
